(** * export_hand.py: hand-only skinned export, embedded and verified

    The script prunes an armature to the [hand.L] subtree, moves the
    [forearm.L] skin weights onto [hand.L], drops a denylist of vertex
    groups, mirrors the bones on X and translates bones and mesh so that
    [hand.L] sits at the origin.

    Modelling choices.
    - Coordinates and weights are exact rationals ([Qc], canonical
      fractions with Leibniz equality); rounding of the host's floats is
      not modelled.
    - A bone is known by its name and points to its parent by name; a
      vertex group is known by its name, which stands for the group index
      stored in the vertex (the host keeps both unique).
    - A bone may be connected to its parent ([use_connect]): the host then
      keeps the child's head on the parent's tail, and every write to a
      head or a tail runs the host's update ([EditBones.transform_update]).
    - Removing a vertex group moves, in every vertex, the last weight
      entry into the place of the removed one, as the host does.
    - The mesh has no parent object, so [transform_apply] bakes
      [matrix_world].
    - [print] is the only observable effect besides the scene, so the
      script runs in a writer + exception monad over the printed lines.
    - [collect] takes the number of nested calls of [collect] that
      Python still allows; the frames that the host's [bone.children]
      needs on top of them are not counted.
    - What the host decides on its own is a parameter of the run
      ([Host]): whether each operator, image load and file access raises,
      whether the new material has a Principled BSDF node, whether the
      texture files exist.  The methods of the data blocks ([select_set],
      [vertex_groups.remove], [edit_bones.remove], [materials.append])
      are taken to succeed.  The content of materials and the GLB
      encoding are the host's. *)

From Stdlib Require Import QArith Qcanon Qround Lqa.
From stdpp Require Import gmap strings list relations.

(** ** mathutils: vectors and affine matrices *)

Module Mathutils.

Local Open Scope Qc_scope.

Record Vector := Vec { x : Qc; y : Qc; z : Qc }.

(** One row [a b c d] of a 4x4 matrix; the fourth row of an object
    matrix is always [0 0 0 1] and is left out. *)
Record Row := MkRow { m0 : Qc; m1 : Qc; m2 : Qc; m3 : Qc }.
Record Matrix := Mat { row0 : Row; row1 : Row; row2 : Row }.

Definition zero : Vector := Vec 0 0 0.

(** [a - b] and [a -= b] *)
Definition sub (a b : Vector) : Vector :=
  Vec (x a - x b) (y a - y b) (z a - z b).

(** [-a] *)
Definition neg (a : Vector) : Vector := Vec (- x a) (- y a) (- z a).

Definition Identity : Matrix :=
  Mat (MkRow 1 0 0 0) (MkRow 0 1 0 0) (MkRow 0 0 1 0).

(** [Matrix.Translation(v)] *)
Definition Translation (v : Vector) : Matrix :=
  Mat (MkRow 1 0 0 (x v)) (MkRow 0 1 0 (y v)) (MkRow 0 0 1 (z v)).

(** [Matrix.Scale(-1, 4, (1, 0, 0))]: the X mirror *)
Definition MirrorX : Matrix :=
  Mat (MkRow (-(1)) 0 0 0) (MkRow 0 1 0 0) (MkRow 0 0 1 0).

Definition dot (r : Row) (v : Vector) : Qc :=
  m0 r * x v + m1 r * y v + m2 r * z v + m3 r.

(** [M @ v] for a point [v] *)
Definition mul (M : Matrix) (v : Vector) : Vector :=
  Vec (dot (row0 M) v) (dot (row1 M) v) (dot (row2 M) v).

(** Python's [min(a, b)] on two arguments: [b] only when [b < a]. *)
Definition min (a b : Qc) : Qc := if decide (b < a) then b else a.
Definition max (a b : Qc) : Qc := if decide (a < b) then b else a.

(** [f'{q:.4f}']: the multiple of 1/10000 nearest to [q], the even one of
    the two when [q] is half way; the value the printed text denotes. *)
Definition format_4f (q : Qc) : Qc :=
  let s := (this q * inject_Z 10000)%Q in
  let n := Qfloor s in
  let up := match (s - inject_Z n ?= 1 # 2)%Q with
            | Lt => false
            | Gt => true
            | Eq => Z.odd n
            end in
  Q2Qc (inject_Z (if up then n + 1 else n) / inject_Z 10000)%Q.

#[global] Instance Vector_eq_dec : EqDecision Vector.
Proof. solve_decision. Defined.
#[global] Instance Row_eq_dec : EqDecision Row.
Proof. solve_decision. Defined.
#[global] Instance Matrix_eq_dec : EqDecision Matrix.
Proof. solve_decision. Defined.

End Mathutils.

Import Mathutils.

(** ** Exceptions and printed lines *)

Inductive Exception :=
| SystemExit (code : Z)
| AttributeError
| IndexError
| RuntimeError
| ValueError
| RecursionError
| TypeError
| OSError.

Inductive Event :=
| ErrorNoArmature
| RemovedDuplicateMesh
| MeshTransformApplied (matrix_world : Matrix)
| HandHeadLocal (offset : Vector)
| VertexAfterApply (co : Vector)
| Transferred
| VertexGroups (names : list string)
| ErrorNoHandBone
| Keeping (n : nat)
| HandAfterMirror (offset : Vector)
| HandHeadAfterTranslate (head : Vector)
| MeshBounds (xmin xmax ymin ymax zmin zmax : Qc)
| Exported.

#[global] Instance Exception_eq_dec : EqDecision Exception.
Proof. solve_decision. Defined.
#[global] Instance Event_eq_dec : EqDecision Event.
Proof. solve_decision. Defined.

(** The script monad: the lines printed so far and either the exception
    that stopped the run or a value. *)
Definition M (A : Type) : Type := list Event * (Exception + A).

Definition ret {A} (a : A) : M A := ([], inr a).
Definition raise {A} (e : Exception) : M A := ([], inl e).
Definition print (ev : Event) : M unit := ([ev], inr tt).
Definition bind {A B} (m : M A) (k : A → M B) : M B :=
  match m with
  | (out, inl e) => (out, inl e)
  | (out, inr a) => let '(out', r) := k a in (out ++ out', r)
  end.

Notation "'do' x <- m ; k" := (bind m (λ x, k))
  (at level 10, x name, m at level 100, k at level 200).
Notation "m ;; k" := (bind m (λ _, k))
  (at level 100, k at level 200, right associativity).

(** [o.attr] where [o] may be [None] *)
Definition attr {A} (o : option A) : M A :=
  match o with Some a => ret a | None => raise AttributeError end.

(** [l[i]] *)
Definition item {A} (l : list A) (i : nat) : M A :=
  match l !! i with Some a => ret a | None => raise IndexError end.

(** ** Edit bones *)

Module EditBone.
Record t := Build
  { name : string;
    parent : option string;
    use_connect : bool;
    head : Vector;
    tail : Vector }.

#[global] Instance eq_dec : EqDecision t.
Proof. solve_decision. Defined.

(** [b.parent = p]: a bone without a parent is connected to none. *)
Definition set_parent (p : option string) (b : t) : t :=
  Build (name b) p (if p is Some _ then use_connect b else false)
    (head b) (tail b).
Definition set_head (v : Vector) (b : t) : t :=
  Build (name b) (parent b) (use_connect b) v (tail b).
Definition set_tail (v : Vector) (b : t) : t :=
  Build (name b) (parent b) (use_connect b) (head b) v.
End EditBone.

Module EditBones.

Definition names (bones : list EditBone.t) : list string :=
  EditBone.name <$> bones.

(** [edit_bones.get(name)] *)
Definition get (n : string) (bones : list EditBone.t) : option EditBone.t :=
  List.find (λ b, bool_decide (EditBone.name b = n)) bones.

(** [bone.children]: the host scans the armature for the bones whose
    parent is [bone], in armature order. *)
Definition children (bones : list EditBone.t) (n : string) : list EditBone.t :=
  filter (λ c, EditBone.parent c = Some n) bones.

(** Assignment to an attribute of the bone called [n]. *)
Definition update (n : string) (f : EditBone.t → EditBone.t)
    (bones : list EditBone.t) : list EditBone.t :=
  (λ b, if decide (EditBone.name b = n) then f b else b) <$> bones.

(** [edit_bones.remove(b)]: the host unlinks the bone; its children are
    not deleted: they lose their connection and hang from the parent of
    the removed bone. *)
Definition remove (n : string) (bones : list EditBone.t) : list EditBone.t :=
  let p := get n bones ≫= EditBone.parent in
  (λ b, if decide (EditBone.parent b = Some n)
        then EditBone.Build (EditBone.name b) p false
               (EditBone.head b) (EditBone.tail b)
        else b)
    <$> filter (λ b, EditBone.name b ≠ n) bones.

(** What the host does after every write to the head or the tail of the
    bone at position [i]: a bone connected to its parent puts its head in
    the parent's tail, and every child connected to the bone takes the
    bone's tail as its head. *)
Definition transform_update (i : nat) (bones : list EditBone.t)
    : list EditBone.t :=
  match bones !! i with
  | None => bones
  | Some ebone =>
      let bones :=
        match EditBone.parent ebone with
        | Some p =>
            if EditBone.use_connect ebone
            then update p (EditBone.set_tail (EditBone.head ebone)) bones
            else bones
        | None => bones
        end in
      (λ child,
         if decide (EditBone.parent child = Some (EditBone.name ebone)
                    ∧ EditBone.use_connect child = true)
         then EditBone.set_head (EditBone.tail ebone) child else child)
        <$> bones
  end.

(** [bone.head = v] and [bone.tail = v] for the bone at position [i] *)
Definition write_head (i : nat) (v : Vector) (bones : list EditBone.t)
    : list EditBone.t :=
  transform_update i (alter (EditBone.set_head v) i bones).
Definition write_tail (i : nat) (v : Vector) (bones : list EditBone.t)
    : list EditBone.t :=
  transform_update i (alter (EditBone.set_tail v) i bones).

End EditBones.

(** ** Mesh, vertices and vertex groups *)

Module VertexGroupElement.
Record t := Build { group : string; weight : Qc }.
#[global] Instance eq_dec : EqDecision t.
Proof. solve_decision. Defined.
End VertexGroupElement.

Module MeshVertex.
Record t := Build { co : Vector; groups : list VertexGroupElement.t }.
#[global] Instance eq_dec : EqDecision t.
Proof. solve_decision. Defined.
End MeshVertex.

Record Mesh := MkMesh
  { matrix_world : Matrix;
    vertex_groups : list string;
    vertices : list MeshVertex.t }.

#[global] Instance Mesh_eq_dec : EqDecision Mesh.
Proof. solve_decision. Defined.

Module VertexGroup.

Local Open Scope Qc_scope.

(** [mesh.vertex_groups.get(name)] *)
Definition get (n : string) (m : Mesh) : option string :=
  if decide (n ∈ vertex_groups m) then Some n else None.

Definition find_elem (vg : string) (gs : list VertexGroupElement.t)
    : option VertexGroupElement.t :=
  List.find (λ g, bool_decide (VertexGroupElement.group g = vg)) gs.

(** [vg.weight(index)]: raises when the vertex is not in the group. *)
Definition weight (vg : string) (m : Mesh) (index : nat) : Exception + Qc :=
  match vertices m !! index with
  | Some v =>
      match find_elem vg (MeshVertex.groups v) with
      | Some g => inr (VertexGroupElement.weight g)
      | None => inl RuntimeError
      end
  | None => inl RuntimeError
  end.

Fixpoint replace (vg : string) (w : Qc) (gs : list VertexGroupElement.t)
    : list VertexGroupElement.t :=
  match gs with
  | [] => [VertexGroupElement.Build vg w]
  | g :: gs' =>
      if decide (VertexGroupElement.group g = vg)
      then VertexGroupElement.Build vg w :: gs'
      else g :: replace vg w gs'
  end.

(** [vg.add(indices, w, 'REPLACE')] *)
Definition add (vg : string) (indices : list nat) (w : Qc) (m : Mesh) : Mesh :=
  MkMesh (matrix_world m) (vertex_groups m)
    (foldl (λ vs i,
              alter (λ v, MeshVertex.Build (MeshVertex.co v)
                            (replace vg w (MeshVertex.groups v))) i vs)
           (vertices m) indices).

(** The host takes the vertex out of a group by moving the last weight
    entry of the vertex into the place of the entry of the group. *)
Fixpoint drop_entry (vg : string) (gs : list VertexGroupElement.t)
    : list VertexGroupElement.t :=
  match gs with
  | [] => []
  | g :: gs' =>
      if decide (VertexGroupElement.group g = vg)
      then match last gs' with
           | Some l => l :: removelast gs'
           | None => []
           end
      else g :: drop_entry vg gs'
  end.

Definition drop (vg : string) (v : MeshVertex.t) : MeshVertex.t :=
  MeshVertex.Build (MeshVertex.co v) (drop_entry vg (MeshVertex.groups v)).

(** [mesh.vertex_groups.remove(vg)]: the group goes, and with it the
    weight every vertex had in it. *)
Definition remove (vg : string) (m : Mesh) : Mesh :=
  MkMesh (matrix_world m)
    (filter (λ n, n ≠ vg) (vertex_groups m))
    (drop vg <$> vertices m).

End VertexGroup.

(** ** The scene the script finds in [bpy.data.objects] *)

Record ArmatureObject := MkArmature
  { edit_bones : list EditBone.t;
    location : Vector;
    rotation_euler : Vector;
    scale : Vector }.

Record BlendData := MkData
  { Armature : option ArmatureObject;
    Cube_000 : option Mesh;
    Cube_005 : option Mesh;
    lights : list string }.

#[global] Instance ArmatureObject_eq_dec : EqDecision ArmatureObject.
Proof. solve_decision. Defined.
#[global] Instance BlendData_eq_dec : EqDecision BlendData.
Proof. solve_decision. Defined.

(** ** What the host decides *)

(** The calls of the script that the host can refuse, by line of
    export_hand.py. *)
Inductive HostCall :=
| SelectAllMesh        (* 25: bpy.ops.object.select_all *)
| TransformApply       (* 28: bpy.ops.object.transform_apply *)
| SelectAllArmature    (* 68: bpy.ops.object.select_all *)
| ModeSetEdit          (* 71: bpy.ops.object.mode_set(mode='EDIT') *)
| ModeSetObject        (* 108: bpy.ops.object.mode_set(mode='OBJECT') *)
| LoadColor            (* 140: bpy.data.images.load(color_path) *)
| LoadNormal           (* 147: bpy.data.images.load(normal_path) *)
| ExportGltf           (* 157: bpy.ops.export_scene.gltf *)
| GetSize.             (* 165: os.path.getsize(out) *)

Record Host := MkHost
  { fails : HostCall → option Exception;
    principled_bsdf : bool;   (* tree.nodes.get('Principled BSDF') is not None *)
    color_exists : bool;      (* os.path.exists(color_path) *)
    normal_exists : bool }.   (* os.path.exists(normal_path) *)

(** A host that refuses nothing and has both textures. *)
Definition willing_host : Host := MkHost (λ _, None) true true true.

(** Closed decidable facts, by evaluation. *)
Ltac by_compute := apply (bool_decide_unpack _); vm_compute; exact I.

(** ** The script, section by section *)

Module ExportHand.

Local Open Scope Qc_scope.

(** *** 1. [transform_apply]: bake the object matrix into the vertices *)

Definition transform (M : Matrix) (m : Mesh) : Mesh :=
  MkMesh (matrix_world m) (vertex_groups m)
    ((λ v, MeshVertex.Build (mul M (MeshVertex.co v)) (MeshVertex.groups v))
       <$> vertices m).

Definition transform_apply (m : Mesh) : Mesh :=
  MkMesh Identity (vertex_groups m) (vertices (transform (matrix_world m) m)).

(** *** 3. Transfer forearm.L weights to hand.L *)

(** [fw = 0; for g in v.groups: if g.group == forearm_vg.index: fw = g.weight; break] *)
Fixpoint group_weight (forearm_vg : string) (gs : list VertexGroupElement.t) : Qc :=
  match gs with
  | [] => 0
  | g :: gs' =>
      if decide (VertexGroupElement.group g = forearm_vg)
      then VertexGroupElement.weight g
      else group_weight forearm_vg gs'
  end.

(** One turn of [for v in mesh1.data.vertices], at the vertex [index]. *)
Definition transfer_vertex (forearm_vg hand_vg : string) (m : Mesh) (index : nat)
    : Mesh :=
  match vertices m !! index with
  | None => m
  | Some v =>
      let fw := group_weight forearm_vg (MeshVertex.groups v) in
      if decide (0 < fw) then
        let hw := match VertexGroup.weight hand_vg m index with
                  | inr w => w
                  | inl _ => 0     (* except RuntimeError: hw = 0 *)
                  end in
        VertexGroup.add hand_vg [index] (min (hw + fw) 1) m
      else m
  end.

(** The body of [if forearm_vg and hand_vg]: the loop, then the removal
    of the source group. *)
Definition transfer (forearm_vg hand_vg : string) (m : Mesh) : Mesh :=
  VertexGroup.remove forearm_vg
    (foldl (transfer_vertex forearm_vg hand_vg) m (seq 0 (length (vertices m)))).

(** Lines 42 to 55, with the two group names as parameters. *)
Definition merge_groups (forearm_name hand_name : string) (m : Mesh) : M Mesh :=
  match VertexGroup.get forearm_name m, VertexGroup.get hand_name m with
  | Some forearm_vg, Some hand_vg =>
      let m' := transfer forearm_vg hand_vg m in
      print Transferred ;; ret m'
  | _, _ => ret m
  end.

(** The script's call: forearm.L into hand.L. *)
Definition transfer_weights (m : Mesh) : M Mesh :=
  merge_groups "forearm.L" "hand.L" m.

(** *** Remove unused vertex groups *)

(** [pat in s] on strings *)
Fixpoint contains (pat s : string) : bool :=
  String.prefix pat s ||
  match s with
  | EmptyString => false
  | String _ s' => contains pat s'
  end.

Definition denylist : list string :=
  ["ribs.001"; "shoulder.L"; "upper_arm.L"; "forearm.L"; "forearm.L.003";
   "shoulder.R"; "upper_arm.R"; "forearm.R"; "forearm.R.003"].

Definition is_removable (n : string) : bool :=
  contains ".R" n || bool_decide (n ∈ denylist).

Definition remove_unused (m : Mesh) : M Mesh :=
  let removable := filter (λ vg, is_removable vg = true) (vertex_groups m) in
  let m' := foldl (λ m vg, VertexGroup.remove vg m) m removable in
  print (VertexGroups (vertex_groups m')) ;; ret m'.

(** *** 4. Keep only the hand.L subtree *)

(** [collect(bone)], adding to the set [keep]; [limit] is the number of
    nested calls of [collect] Python still allows. *)
Fixpoint collect (limit : nat) (bones : list EditBone.t) (bone : string)
    (keep : gset string) : Exception + gset string :=
  match limit with
  | O => inl RecursionError
  | S limit' =>
      foldl (λ acc c,
               match acc with
               | inr keep' => collect limit' bones (EditBone.name c) keep'
               | inl e => inl e
               end)
            (inr ({[bone]} ∪ keep)) (EditBones.children bones bone)
  end.

Definition lift {A} (r : Exception + A) : M A := ([], r).

(** [to_delete] and the deletion loop *)
Definition to_delete (keep : gset string) (bones : list EditBone.t) : list string :=
  EditBone.name <$> filter (λ b, EditBone.name b ∉ keep) bones.

Definition delete_bones (names : list string) (bones : list EditBone.t)
    : list EditBone.t :=
  foldl (λ bs bname,
           match EditBones.get bname bs with
           | Some b => EditBones.remove (EditBone.name b) bs
           | None => bs
           end) bones names.

Definition keep_hand_subtree (limit : nat) (bones : list EditBone.t)
    : M (list EditBone.t) :=
  do hand_l <- match EditBones.get "hand.L" bones with
               | Some b => ret b
               | None => print ErrorNoHandBone ;; raise (SystemExit 1)
               end;
  do keep <- lift (collect limit bones (EditBone.name hand_l) ∅);
  print (Keeping (size keep)) ;;
  let bones := delete_bones (to_delete keep bones) bones in
  do hand_l <- attr (EditBones.get "hand.L" bones);
  ret (EditBones.update (EditBone.name hand_l) (EditBone.set_parent None) bones).

(** *** Mirror, recompute the offset, translate bones; 5. translate mesh *)

(** [v.x = -v.x] *)
Definition mirror_x (v : Vector) : Vector := Vec (- x v) (y v) (z v).

(** One turn of a loop [for bone in arm_obj.data.edit_bones] that writes
    [f bone.head] to the head and then [f bone.tail] to the tail of the
    bone at position [i]; each write reads the bone as the writes before
    it left it. *)
Definition write_bone (f : Vector → Vector) (bones : list EditBone.t) (i : nat)
    : list EditBone.t :=
  match bones !! i with
  | None => bones
  | Some bone =>
      let bones := EditBones.write_head i (f (EditBone.head bone)) bones in
      match bones !! i with
      | None => bones
      | Some bone => EditBones.write_tail i (f (EditBone.tail bone)) bones
      end
  end.

Definition write_bones (f : Vector → Vector) (bones : list EditBone.t)
    : list EditBone.t :=
  foldl (write_bone f) bones (seq 0 (length bones)).

(** Lines 94 to 106: mirror every bone, read the offset, translate every
    bone. *)
Definition rebase_bones (bones : list EditBone.t) : M (Vector * list EditBone.t) :=
  let bones := write_bones mirror_x bones in
  do hand_l <- attr (EditBones.get "hand.L" bones);
  let offset := EditBone.head hand_l in      (* a copy, not a view *)
  print (HandAfterMirror offset) ;;
  let bones := write_bones (λ v, sub v offset) bones in
  do hand_l <- attr (EditBones.get "hand.L" bones);
  print (HandHeadAfterTranslate (EditBone.head hand_l)) ;;
  ret (offset, bones).

(** A call the host can refuse. *)
Definition host_call (host : Host) (c : HostCall) : M unit :=
  match fails host c with
  | Some e => raise e
  | None => ret tt
  end.

Definition rebase (host : Host) (arm : ArmatureObject) (mesh1 : Mesh)
    : M (ArmatureObject * Mesh) :=
  do r <- rebase_bones (edit_bones arm);
  host_call host ModeSetObject ;;
  let arm := MkArmature (snd r) (Vec 0 0 0) (Vec 0 0 0) (Vec 1 1 1) in
  let mesh1 := transform (Translation (neg (fst r))) mesh1 in
  ret (arm, mesh1).

(** [min(xs)] and [max(xs)] on a list *)
Definition list_min (xs : list Qc) : M Qc :=
  match xs with
  | [] => raise ValueError
  | a :: xs' => ret (foldl (λ acc b, min acc b) a xs')
  end.
Definition list_max (xs : list Qc) : M Qc :=
  match xs with
  | [] => raise ValueError
  | a :: xs' => ret (foldl (λ acc b, max acc b) a xs')
  end.

Definition print_bounds (m : Mesh) : M unit :=
  let xs := (λ v, x (MeshVertex.co v)) <$> vertices m in
  let ys := (λ v, y (MeshVertex.co v)) <$> vertices m in
  let zs := (λ v, z (MeshVertex.co v)) <$> vertices m in
  do x0 <- list_min xs; do x1 <- list_max xs;
  do y0 <- list_min ys; do y1 <- list_max ys;
  do z0 <- list_min zs; do z1 <- list_max zs;
  print (MeshBounds (format_4f x0) (format_4f x1) (format_4f y0) (format_4f y1)
           (format_4f z0) (format_4f z1)).

(** *** 7. Materials: a texture node is made and linked to the BSDF node
    for each texture file that exists. *)
Definition link_texture (host : Host) (exists_ : bool) (load : HostCall) : M unit :=
  if exists_ then
    host_call host load ;;
    (* tree.links.new(..., bsdf.inputs[...]) *)
    if principled_bsdf host then ret tt else raise AttributeError
  else ret tt.

Definition attach_materials (host : Host) : M unit :=
  link_texture host (color_exists host) LoadColor ;;
  link_texture host (normal_exists host) LoadNormal.

(** *** The whole script.  The value returned is the scene handed to the
    exporter; the last line is printed once the exported file has been
    measured. *)
Definition main (host : Host) (limit : nat) (data : BlendData) : M BlendData :=
  do arm_obj <- match Armature data with
                | Some a => ret a
                | None => print ErrorNoArmature ;; raise (SystemExit 1)
                end;
  (* 0 *)
  match Cube_005 data with
  | Some mesh2 => print RemovedDuplicateMesh
  | None => ret tt
  end ;;
  (* 1 *)
  host_call host SelectAllMesh ;;
  do mesh1 <- attr (Cube_000 data);
  host_call host TransformApply ;;
  let mesh1 := transform_apply mesh1 in
  print (MeshTransformApplied (matrix_world mesh1)) ;;
  (* 2 *)
  do hand_bone <- attr (EditBones.get "hand.L" (edit_bones arm_obj));
  print (HandHeadLocal (EditBone.head hand_bone)) ;;
  do v_sample <- item (vertices mesh1) 0;
  print (VertexAfterApply (MeshVertex.co v_sample)) ;;
  (* 3 *)
  do mesh1 <- transfer_weights mesh1;
  do mesh1 <- remove_unused mesh1;
  (* 4 *)
  host_call host SelectAllArmature ;;
  host_call host ModeSetEdit ;;
  do bones <- keep_hand_subtree limit (edit_bones arm_obj);
  let arm_obj := MkArmature bones (location arm_obj) (rotation_euler arm_obj)
                   (scale arm_obj) in
  (* mirror, translate; 5 *)
  do r <- rebase host arm_obj mesh1;
  print_bounds (snd r) ;;
  (* 6: the lights go; 7 *)
  attach_materials host ;;
  (* 8 *)
  host_call host ExportGltf ;;
  host_call host GetSize ;;
  print Exported ;;
  ret (MkData (Some (fst r)) (Some (snd r)) None []).

End ExportHand.

(** ** Vocabulary of the statements, and the example scenes *)

Section vertex_group_terms.

Import ExportHand.
Local Open Scope Qc_scope.

Implicit Types (m : Mesh) (v : MeshVertex.t) (gs : list VertexGroupElement.t).

(** What one turn of the loop does to the vertex it visits. *)
Definition merged (forearm_vg hand_vg : string) v : MeshVertex.t :=
  let fw := group_weight forearm_vg (MeshVertex.groups v) in
  if decide (0 < fw) then
    MeshVertex.Build (MeshVertex.co v)
      (VertexGroup.replace hand_vg
         (min (group_weight hand_vg (MeshVertex.groups v) + fw) 1)
         (MeshVertex.groups v))
  else v.

(** The entries left after the removal of the groups of [l], one after
    the other. *)
Definition drop_all (l : list string) gs : list VertexGroupElement.t :=
  foldl (λ gs vg, VertexGroup.drop_entry vg gs) gs l.

End vertex_group_terms.

Section weight_transfer_terms.

Import ExportHand.
Local Open Scope Qc_scope.

(** Every weight of the vertex lies in [[0,1]], as the host stores it. *)
Definition weights_valid (v : MeshVertex.t) : Prop :=
  ∀ g, g ∈ MeshVertex.groups v →
       0 ≤ VertexGroupElement.weight g ∧ VertexGroupElement.weight g ≤ 1.

(** The host keeps at most one entry per group in a vertex. *)
Definition entries_unique (v : MeshVertex.t) : Prop :=
  NoDup (VertexGroupElement.group <$> MeshVertex.groups v).

(** The weight of the entries of [gs] that are in the group [vg], read
    off the entries: none counts as 0. *)
Definition entry_sum (vg : string) (gs : list VertexGroupElement.t) : Qc :=
  foldr (λ g acc, if decide (VertexGroupElement.group g = vg)
                  then VertexGroupElement.weight g + acc else acc) 0 gs.

(** The weight the vertex has in the group [vg]. *)
Definition stored_weight (vg : string) (v : MeshVertex.t) : Qc :=
  entry_sum vg (MeshVertex.groups v).

(** The summed weight of the groups in [removal]. *)
Definition summed_weight (removal : list string) (v : MeshVertex.t) : Qc :=
  foldr (λ vg acc, stored_weight vg v + acc) 0 removal.

(** The bones of [arm] that are no longer in [arm']. *)
Definition removed_bones (arm arm' : ArmatureObject) : list string :=
  filter (λ n, n ∉ EditBones.names (edit_bones arm'))
         (EditBones.names (edit_bones arm)).

(** The reading of C3: in the exported mesh every vertex has, on hand.L,
    its old hand.L weight plus its weights on all the bones that
    extraction removed, cut off at 1. *)
Definition merges_removal_set : Prop :=
  ∀ host limit data arm mesh1 out arm' mesh1' i v v',
    Armature data = Some arm → Cube_000 data = Some mesh1 →
    main host limit data = (out, inr (MkData (Some arm') (Some mesh1') None [])) →
    vertices mesh1 !! i = Some v → vertices mesh1' !! i = Some v' →
    entries_unique v → weights_valid v →
    stored_weight "hand.L" v'
    = min (stored_weight "hand.L" v + summed_weight (removed_bones arm arm') v) 1.

Definition example_vertex : MeshVertex.t :=
  MeshVertex.Build (Vec 0 0 0)
    [VertexGroupElement.Build "forearm.L" (Q2Qc (8 # 10));
     VertexGroupElement.Build "hand.L" (Q2Qc (6 # 10))].

Definition example_mesh : Mesh :=
  MkMesh Identity ["forearm.L"; "hand.L"] [example_vertex].

(** A mesh for the frame of the transfer: a vertex with a weight on a
    finger besides forearm.L and hand.L, and a vertex with no forearm.L
    weight. *)
Definition frame_vertex : MeshVertex.t :=
  MeshVertex.Build (Vec 0 0 0)
    [VertexGroupElement.Build "thumb.01.L" (Q2Qc (2 # 10));
     VertexGroupElement.Build "forearm.L" (Q2Qc (3 # 10));
     VertexGroupElement.Build "hand.L" (Q2Qc (4 # 10))].

Definition frame_vertex_no_forearm : MeshVertex.t :=
  MeshVertex.Build (Vec 1 0 0)
    [VertexGroupElement.Build "thumb.01.L" (Q2Qc (1 # 2));
     VertexGroupElement.Build "hand.L" (Q2Qc (1 # 2))].

Definition frame_mesh : Mesh :=
  MkMesh Identity ["forearm.L"; "hand.L"; "thumb.01.L"]
    [frame_vertex; frame_vertex_no_forearm].

Definition mesh_without_hand_group : Mesh :=
  MkMesh Identity ["forearm.L"]
    [MeshVertex.Build (Vec 0 0 0)
       [VertexGroupElement.Build "forearm.L" (Q2Qc (8 # 10))]].

End weight_transfer_terms.

Section hierarchy_terms.

Import ExportHand.

Implicit Types (bones : list EditBone.t) (b : EditBone.t) (n : string).

(** [c] is a bone of the armature and [p] is its parent. *)
Definition parent_link bones (c p : string) : Prop :=
  ∃ b, b ∈ bones ∧ EditBone.name b = c ∧ EditBone.parent b = Some p.

(** [n] is [root] or one of its transitive descendants. *)
Definition in_subtree bones (root n : string) : Prop :=
  rtc (parent_link bones) n root.

Definition parent_of bones n : option string :=
  EditBones.get n bones ≫= EditBone.parent.

(** The number of parent links from [n] up to a root, when a root is
    reached in fewer than [fuel] steps. *)
Fixpoint depth (fuel : nat) bones n : option nat :=
  match fuel with
  | O => None
  | S fuel' =>
      match parent_of bones n with
      | None => Some O
      | Some p => S <$> depth fuel' bones p
      end
  end.

(** A forest: from every bone the parent links lead to a root, which for
    unique names takes fewer steps than there are bones. *)
Definition acyclic bones : Prop :=
  Forall (λ n, is_Some (depth (length bones) bones n)) (EditBones.names bones).

Definition rank bones n : nat :=
  match depth (length bones) bones n with
  | Some d => length bones - d
  | None => O
  end.

(** The bones the script ends section 4 with, given the set [keep]. *)
Definition pruned (keep : gset string) bones : list EditBone.t :=
  EditBones.update "hand.L" (EditBone.set_parent None)
    (delete_bones (to_delete keep bones) bones).

(** [b'] is the bone [b], possibly with another parent. *)
Definition same_bone (b' b : EditBone.t) : Prop :=
  EditBone.name b' = EditBone.name b ∧
  EditBone.head b' = EditBone.head b ∧
  EditBone.tail b' = EditBone.tail b.

Definition bone_at (n : string) (p : option string) (hx hy hz : Z) : EditBone.t :=
  EditBone.Build n p false (Vec (Q2Qc (hx # 1)) (Q2Qc (hy # 1)) (Q2Qc (hz # 1)))
    (Vec (Q2Qc (hx # 1)) (Q2Qc (hy + 1 # 1)) (Q2Qc (hz # 1))).

(** An arm: forearm.L, hand.L under it, a finger under hand.L and a twist
    bone next to hand.L. *)
Definition arm_bones : list EditBone.t :=
  [bone_at "forearm.L" None 1 1 0;
   bone_at "hand.L" (Some "forearm.L") 2 1 0;
   bone_at "finger_middle.01.L" (Some "hand.L") 3 1 0;
   bone_at "forearm.L.003" (Some "forearm.L") 1 2 0].

End hierarchy_terms.

Section rebasing_terms.

Import ExportHand.
Local Open Scope Qc_scope.

(** The name, the parent and the connection of a bone: what no write to
    a head or a tail changes. *)
Definition shape (b : EditBone.t) : string * option string * bool :=
  (EditBone.name b, EditBone.parent b, EditBone.use_connect b).

(** No bone is connected to its parent. *)
Definition unconnected (bones : list EditBone.t) : Prop :=
  Forall (λ b, EditBone.use_connect b = false) bones.

(** The bone [b] with [f] applied to its head and to its tail. *)
Definition moved_bone (f : Vector → Vector) (b : EditBone.t) : EditBone.t :=
  EditBone.set_tail (f (EditBone.tail b))
    (EditBone.set_head (f (EditBone.head b)) b).

(** The bone [b] with its head and its tail mirrored and then moved by
    [offset]. *)
Definition rebased_bone (offset : Vector) (b : EditBone.t) : EditBone.t :=
  EditBone.Build (EditBone.name b) (EditBone.parent b) (EditBone.use_connect b)
    (sub (mirror_x (EditBone.head b)) offset)
    (sub (mirror_x (EditBone.tail b)) offset).

Definition rebased_vertex (offset : Vector) (v : MeshVertex.t) : MeshVertex.t :=
  MeshVertex.Build (sub (MeshVertex.co v) offset) (MeshVertex.groups v).

Definition vec3 (a b c : Z) : Vector :=
  Vec (Q2Qc (a # 1)) (Q2Qc (b # 1)) (Q2Qc (c # 1)).

(** The arm of [arm_bones] with a one-vertex mesh whose object matrix is
    the X mirror, and a duplicate of that mesh. *)
Definition arm_mesh : Mesh :=
  MkMesh MirrorX ["forearm.L"; "hand.L"]
    [MeshVertex.Build (vec3 (-1) 1 0)
       [VertexGroupElement.Build "forearm.L" (Q2Qc (8 # 10));
        VertexGroupElement.Build "hand.L" (Q2Qc (6 # 10))]].

Definition arm_armature : ArmatureObject :=
  MkArmature arm_bones (vec3 5 5 5) (vec3 0 0 0) (vec3 1 1 1).

Definition arm_scene : BlendData :=
  MkData (Some arm_armature) (Some arm_mesh) (Some arm_mesh) ["Light"].

(** What section 4 leaves of [arm_armature]. *)
Definition arm_armature_pruned : ArmatureObject :=
  MkArmature
    [bone_at "hand.L" None 2 1 0;
     bone_at "finger_middle.01.L" (Some "hand.L") 3 1 0]
    (vec3 5 5 5) (vec3 0 0 0) (vec3 1 1 1).

(** A hand connected to the forearm, with a finger connected to the
    hand: the head of a connected bone is the tail of its parent.  The
    mesh, whose object matrix is the X mirror, has one vertex on the head
    and one on the tail of hand.L. *)
Definition connected_bones : list EditBone.t :=
  [EditBone.Build "forearm.L" None false (vec3 1 1 0) (vec3 2 1 0);
   EditBone.Build "hand.L" (Some "forearm.L") true (vec3 2 1 0) (vec3 3 1 0);
   EditBone.Build "finger_middle.01.L" (Some "hand.L") true
     (vec3 3 1 0) (vec3 4 1 0)].

(** What section 4 leaves of [connected_bones]. *)
Definition connected_pruned : list EditBone.t :=
  [EditBone.Build "hand.L" None false (vec3 2 1 0) (vec3 3 1 0);
   EditBone.Build "finger_middle.01.L" (Some "hand.L") true
     (vec3 3 1 0) (vec3 4 1 0)].

Definition connected_mesh : Mesh :=
  MkMesh MirrorX ["hand.L"; "finger_middle.01.L"]
    [MeshVertex.Build (vec3 2 1 0) [VertexGroupElement.Build "hand.L" 1];
     MeshVertex.Build (vec3 3 1 0)
       [VertexGroupElement.Build "finger_middle.01.L" 1]].

Definition connected_scene : BlendData :=
  MkData
    (Some (MkArmature connected_bones (vec3 0 0 0) (vec3 0 0 0) (vec3 1 1 1)))
    (Some connected_mesh) None [].

Definition connected_scene_result : BlendData :=
  MkData
    (Some (MkArmature
             [EditBone.Build "hand.L" None false (vec3 0 0 0) (vec3 7 (-1) 0);
              EditBone.Build "finger_middle.01.L" (Some "hand.L") true
                (vec3 7 (-1) 0) (vec3 (-2) 0 0)]
             (vec3 0 0 0) (vec3 0 0 0) (vec3 1 1 1)))
    (Some (MkMesh Identity ["hand.L"; "finger_middle.01.L"]
             [MeshVertex.Build (vec3 0 0 0) [VertexGroupElement.Build "hand.L" 1];
              MeshVertex.Build (vec3 (-1) 0 0)
                [VertexGroupElement.Build "finger_middle.01.L" 1]]))
    None [].

Definition arm_scene_out : list Event :=
  [RemovedDuplicateMesh; MeshTransformApplied Identity;
   HandHeadLocal (vec3 2 1 0); VertexAfterApply (vec3 1 1 0);
   Transferred; VertexGroups ["hand.L"]; Keeping 2;
   HandAfterMirror (vec3 (-2) 1 0); HandHeadAfterTranslate (vec3 0 0 0);
   MeshBounds (Q2Qc 3) (Q2Qc 3) 0 0 0 0; Exported].

Definition arm_scene_result : BlendData :=
  MkData
    (Some (MkArmature
             [bone_at "hand.L" None 0 0 0;
              bone_at "finger_middle.01.L" (Some "hand.L") (-1) 0 0]
             (vec3 0 0 0) (vec3 0 0 0) (vec3 1 1 1)))
    (Some (MkMesh Identity ["hand.L"]
             [MeshVertex.Build (vec3 3 0 0) [VertexGroupElement.Build "hand.L" 1]]))
    None [].

End rebasing_terms.

Section cleanup_terms.

Import ExportHand.
Local Open Scope Qc_scope.

(** Every weight of every vertex is in a group of the mesh. *)
Definition mesh_wf (m : Mesh) : Prop :=
  Forall (λ v, Forall (λ g, VertexGroupElement.group g ∈ vertex_groups m)
                 (MeshVertex.groups v)) (vertices m).

(** Section 3 followed by the removal of unused groups, as [main] runs
    them. *)
Definition transfer_then_cleanup (m : Mesh) : M Mesh :=
  do m1 <- transfer_weights m; remove_unused m1.

(** A hand hanging from a spine, with half of the vertex's weight on
    the spine. *)
Definition spine_mesh : Mesh :=
  MkMesh Identity ["spine"; "hand.L"]
    [MeshVertex.Build (vec3 2 1 0)
       [VertexGroupElement.Build "spine" (Q2Qc (1 # 2));
        VertexGroupElement.Build "hand.L" (Q2Qc (1 # 2))]].

Definition spine_armature : ArmatureObject :=
  MkArmature [bone_at "spine" None 0 0 0; bone_at "hand.L" (Some "spine") 2 1 0]
    (vec3 0 0 0) (vec3 0 0 0) (vec3 1 1 1).

Definition spine_scene : BlendData :=
  MkData (Some spine_armature) (Some spine_mesh) None [].

Definition spine_result_armature : ArmatureObject :=
  MkArmature [bone_at "hand.L" None 0 0 0] (vec3 0 0 0) (vec3 0 0 0) (vec3 1 1 1).

Definition spine_result_mesh : Mesh :=
  MkMesh Identity ["spine"; "hand.L"]
    [MeshVertex.Build (vec3 4 0 0)
       [VertexGroupElement.Build "spine" (Q2Qc (1 # 2));
        VertexGroupElement.Build "hand.L" (Q2Qc (1 # 2))]].

(** A hand under a forearm under an upper arm, with a vertex that has
    weight on all three. *)
Definition upper_arm_vertex : MeshVertex.t :=
  MeshVertex.Build (vec3 2 1 0)
    [VertexGroupElement.Build "upper_arm.L" (Q2Qc (1 # 2));
     VertexGroupElement.Build "forearm.L" (Q2Qc (1 # 4));
     VertexGroupElement.Build "hand.L" (Q2Qc (1 # 8))].

Definition upper_arm_mesh : Mesh :=
  MkMesh Identity ["upper_arm.L"; "forearm.L"; "hand.L"] [upper_arm_vertex].

Definition upper_arm_armature : ArmatureObject :=
  MkArmature
    [bone_at "upper_arm.L" None 0 0 0;
     bone_at "forearm.L" (Some "upper_arm.L") 1 1 0;
     bone_at "hand.L" (Some "forearm.L") 2 1 0]
    (vec3 0 0 0) (vec3 0 0 0) (vec3 1 1 1).

Definition upper_arm_scene : BlendData :=
  MkData (Some upper_arm_armature) (Some upper_arm_mesh) None [].

Definition upper_arm_result_mesh : Mesh :=
  MkMesh Identity ["hand.L"]
    [MeshVertex.Build (vec3 4 0 0)
       [VertexGroupElement.Build "hand.L" (Q2Qc (3 # 8))]].

Definition denylisted_mesh : Mesh :=
  MkMesh Identity ["forearm.L"; "hand.L"; "hand.R"; "shoulder.L"]
    [MeshVertex.Build (vec3 1 1 0)
       [VertexGroupElement.Build "shoulder.L" (Q2Qc (1 # 4));
        VertexGroupElement.Build "hand.R" (Q2Qc (1 # 4));
        VertexGroupElement.Build "hand.L" (Q2Qc (1 # 2))]].

End cleanup_terms.

Section order_terms.

Import ExportHand.

(** The stages of the pipeline, each known by the line its section of
    the script prints.  Loading is done by the host before the script
    starts and prints nothing. *)
Inductive Stage :=
| DiscardDuplicate
| ApplyTransform
| SubtreeExtractor
| WeightReassigner
| CleanupGroups
| Rebaser
| HandOff.

#[global] Instance Stage_eq_dec : EqDecision Stage.
Proof. solve_decision. Defined.

Definition stage_of (ev : Event) : option Stage :=
  match ev with
  | RemovedDuplicateMesh => Some DiscardDuplicate
  | MeshTransformApplied _ => Some ApplyTransform
  | Transferred => Some WeightReassigner
  | VertexGroups _ => Some CleanupGroups
  | Keeping _ => Some SubtreeExtractor
  | HandAfterMirror _ => Some Rebaser
  | Exported => Some HandOff
  | _ => None
  end.

Definition stages (out : list Event) : list Stage := omap stage_of out.

(** [l] goes through stages of [order] only, in the order of [order],
    each at most once. *)
Fixpoint in_order (order l : list Stage) : bool :=
  match order with
  | [] => match l with [] => true | _ :: _ => false end
  | s :: order' =>
      match l with
      | [] => true
      | a :: l' => if decide (a = s) then in_order order' l' else in_order order' l
      end
  end.

(** The order C4 gives. *)
Definition claimed_order : list Stage :=
  [DiscardDuplicate; ApplyTransform; SubtreeExtractor; WeightReassigner;
   CleanupGroups; Rebaser; HandOff].

Definition runs_in_claimed_order : Prop :=
  ∀ host limit data out d,
    main host limit data = (out, inr d) →
    in_order claimed_order (stages out) = true.

End order_terms.

(** ** Vocabulary for the rest of the scripts *)

Section main_terms.

Import ExportHand.

Local Open Scope Qc_scope.

(** What section 0 prints. *)
Definition dup_out (data : BlendData) : list Event :=
  if Cube_005 data is Some _ then [RemovedDuplicateMesh] else [].

(** The mesh after section 3. *)
Definition transferred (m : Mesh) : Mesh :=
  if decide ("forearm.L" ∈ vertex_groups m ∧ "hand.L" ∈ vertex_groups m)
  then transfer "forearm.L" "hand.L" m else m.

Definition transferred_out (m : Mesh) : list Event :=
  if decide ("forearm.L" ∈ vertex_groups m ∧ "hand.L" ∈ vertex_groups m)
  then [Transferred] else [].

(** The mesh after the removal of the unused groups. *)
Definition unused_removed (m : Mesh) : Mesh :=
  foldl (λ m vg, VertexGroup.remove vg m) m
    (filter (λ vg, is_removable vg = true) (vertex_groups m)).

(** The scene handed to the exporter, from the armature, the mesh, the
    set [collect] gathered and the hand.L bone of the input. *)
Definition exported (arm : ArmatureObject) (mesh1 : Mesh) (keep : gset string)
    (hand_bone : EditBone.t) : BlendData :=
  let offset := mirror_x (EditBone.head hand_bone) in
  let mesh3 := unused_removed (transferred (transform_apply mesh1)) in
  MkData
    (Some (MkArmature
             (write_bones (λ v, sub v offset)
                (write_bones mirror_x (pruned keep (edit_bones arm))))
             (Vec 0 0 0) (Vec 0 0 0) (Vec 1 1 1)))
    (Some (MkMesh (matrix_world mesh3) (vertex_groups mesh3)
             (rebased_vertex offset <$> vertices mesh3)))
    None [].

End main_terms.

Section loop_order_terms.

Import ExportHand.

Local Open Scope Qc_scope.

Definition two_vertex_mesh : Mesh :=
  MkMesh Identity ["forearm.L"; "hand.L"]
    [MeshVertex.Build (vec3 0 0 0)
       [VertexGroupElement.Build "forearm.L" (Q2Qc (3 # 10));
        VertexGroupElement.Build "hand.L" (Q2Qc (6 # 10))];
     MeshVertex.Build (vec3 1 0 0)
       [VertexGroupElement.Build "forearm.L" (Q2Qc (1 # 2))]].

End loop_order_terms.

Section more_examples_terms.

Import ExportHand.

Local Open Scope Qc_scope.

(** What is left of [arm_bones] after section 4. *)
Definition arm_pruned : list EditBone.t :=
  [bone_at "hand.L" None 2 1 0;
   bone_at "finger_middle.01.L" (Some "hand.L") 3 1 0].

End more_examples_terms.

(** ** Facts about lists *)

Section list_facts.

Lemma filter_ext_elem {A} (P Q : A → Prop) `{∀ x, Decision (P x)} `{∀ x, Decision (Q x)}
    (l : list A) :
  (∀ x, x ∈ l → P x ↔ Q x) → filter P l = filter Q l.
Proof.
  induction l as [|a l IH]; intros Hext; [done|].
  rewrite !filter_cons.
  rewrite IH by (intros x Hx; apply Hext; by apply list_elem_of_further).
  pose proof (Hext a (list_elem_of_here _ _)) as Ha.
  destruct (decide (P a)), (decide (Q a)); tauto || done.
Qed.

Lemma filter_all {A} (P : A → Prop) `{∀ x, Decision (P x)} (l : list A) :
  (∀ x, x ∈ l → P x) → filter P l = l.
Proof.
  induction l as [|a l IH]; intros Hall; [done|].
  rewrite filter_cons_True by apply Hall, list_elem_of_here.
  rewrite IH; [done|]. intros x Hx. by apply Hall, list_elem_of_further.
Qed.

Lemma filter_none {A} (P : A → Prop) `{∀ x, Decision (P x)} (l : list A) :
  (∀ x, x ∈ l → ¬ P x) → filter P l = [].
Proof.
  induction l as [|a l IH]; intros Hall; [done|].
  rewrite filter_cons_False by apply Hall, list_elem_of_here.
  apply IH. intros x Hx. by apply Hall, list_elem_of_further.
Qed.

End list_facts.

(** ** Facts about vertex groups *)

Section vertex_group_facts.

Import ExportHand.
Local Open Scope Qc_scope.

Implicit Types (m : Mesh) (v : MeshVertex.t) (gs : list VertexGroupElement.t).

Lemma group_weight_find vg gs :
  group_weight vg gs
  = from_option VertexGroupElement.weight 0 (VertexGroup.find_elem vg gs).
Proof.
  induction gs as [|g gs IH]; simpl; [done|].
  unfold VertexGroup.find_elem in *. simpl.
  case_decide as Hg.
  - by rewrite bool_decide_eq_true_2.
  - by rewrite bool_decide_eq_false_2.
Qed.

(** The removal of an entry: either the vertex has no entry for the group
    and nothing changes, or one entry [g] of the group goes and the other
    entries stay, in another order. *)
Lemma drop_entry_spec vg gs :
  ((∀ g, g ∈ gs → VertexGroupElement.group g ≠ vg)
   ∧ VertexGroup.drop_entry vg gs = gs)
  ∨ ∃ g, VertexGroupElement.group g = vg
         ∧ g :: VertexGroup.drop_entry vg gs ≡ₚ gs.
Proof.
  induction gs as [|g gs IH]; simpl.
  - left. split; [|done]. intros g Hg. by apply elem_of_nil in Hg.
  - case_decide as Hg.
    + right. exists g. split; [done|]. constructor.
      destruct (last gs) as [l|] eqn:Hl.
      * apply last_Some in Hl as [gs' ->].
        rewrite removelast_last. by rewrite Permutation_cons_append.
      * apply last_None in Hl. by subst.
    + destruct IH as [[Hno Heq]|(g' & Hg' & Hp)].
      * left. split; [|by rewrite Heq].
        intros g0 Hg0. apply elem_of_cons in Hg0 as [->|Hg0]; auto.
      * right. exists g'. split; [done|].
        rewrite Permutation_swap. by constructor.
Qed.

Lemma elem_of_drop_entry g vg gs :
  g ∈ VertexGroup.drop_entry vg gs → g ∈ gs.
Proof.
  intros Hg. destruct (drop_entry_spec vg gs) as [[_ Heq]|(g' & _ & Hp)].
  - by rewrite Heq in Hg.
  - rewrite <- Hp. by apply list_elem_of_further.
Qed.

Lemma elem_of_drop_entry_ne g vg gs :
  g ∈ gs → VertexGroupElement.group g ≠ vg → g ∈ VertexGroup.drop_entry vg gs.
Proof.
  intros Hg Hne. destruct (drop_entry_spec vg gs) as [[_ Heq]|(g' & Hg' & Hp)].
  - by rewrite Heq.
  - rewrite <- Hp in Hg. apply elem_of_cons in Hg as [->|Hg]; [done|done].
Qed.

Lemma drop_entry_unique vg gs :
  NoDup (VertexGroupElement.group <$> gs) →
  NoDup (VertexGroupElement.group <$> VertexGroup.drop_entry vg gs)
  ∧ ∀ g, g ∈ VertexGroup.drop_entry vg gs → VertexGroupElement.group g ≠ vg.
Proof.
  intros Hnd. destruct (drop_entry_spec vg gs) as [[Hno Heq]|(g' & Hg' & Hp)].
  - rewrite Heq. split; [done|exact Hno].
  - rewrite <- Hp in Hnd. rewrite fmap_cons in Hnd.
    apply NoDup_cons in Hnd as [Hnotin Hnd]. split; [done|].
    intros g Hg Heq. apply Hnotin. apply list_elem_of_fmap.
    exists g. split; [congruence|done].
Qed.

(** With one entry per group, the entries left are those of the other
    groups. *)
Lemma drop_entry_filter vg gs :
  NoDup (VertexGroupElement.group <$> gs) →
  VertexGroup.drop_entry vg gs
  ≡ₚ filter (λ g, VertexGroupElement.group g ≠ vg) gs.
Proof.
  intros Hnd. destruct (drop_entry_unique vg gs Hnd) as [_ Hno].
  destruct (drop_entry_spec vg gs) as [[Hno' Heq]|(g' & Hg' & Hp)].
  - rewrite Heq. clear Heq Hno Hnd.
    induction gs as [|g gs IH]; [done|].
    rewrite filter_cons, decide_True by (apply Hno'; left).
    constructor. apply IH. intros g0 Hg0. apply Hno'. by right.
  - assert (filter (λ g, VertexGroupElement.group g ≠ vg)
              (g' :: VertexGroup.drop_entry vg gs)
            ≡ₚ filter (λ g, VertexGroupElement.group g ≠ vg) gs) as <-
      by (by rewrite Hp).
    rewrite filter_cons, decide_False by (by intros H; apply H).
    revert Hno. generalize (VertexGroup.drop_entry vg gs). clear.
    intros l Hno. induction l as [|g l IH]; [done|].
    rewrite filter_cons, decide_True by (apply Hno; left).
    constructor. apply IH. intros g0 Hg0. apply Hno. by right.
Qed.

Lemma entry_sum_perm vg gs gs' :
  gs ≡ₚ gs' → entry_sum vg gs = entry_sum vg gs'.
Proof.
  induction 1 as [|g gs gs' _ IH|g1 g2 gs|gs1 gs2 gs3 _ IH1 _ IH2]; simpl.
  - done.
  - by rewrite IH.
  - repeat case_decide; try done. ring.
  - by rewrite IH1.
Qed.

Lemma entry_sum_none vg gs :
  (∀ g, g ∈ gs → VertexGroupElement.group g ≠ vg) → entry_sum vg gs = 0.
Proof.
  induction gs as [|g gs IH]; intros Hno; simpl; [done|].
  rewrite decide_False by (apply Hno; left).
  apply IH. intros g0 Hg0. apply Hno. by right.
Qed.

Lemma entry_sum_drop_ne vg vg' gs :
  vg' ≠ vg → entry_sum vg' (VertexGroup.drop_entry vg gs) = entry_sum vg' gs.
Proof.
  intros Hne. destruct (drop_entry_spec vg gs) as [[_ Heq]|(g' & Hg' & Hp)].
  - by rewrite Heq.
  - rewrite <- (entry_sum_perm vg' _ _ Hp). simpl.
    by rewrite decide_False by congruence.
Qed.

Lemma entry_sum_drop_eq vg gs :
  NoDup (VertexGroupElement.group <$> gs) →
  entry_sum vg (VertexGroup.drop_entry vg gs) = 0.
Proof.
  intros Hnd. apply entry_sum_none. by apply drop_entry_unique.
Qed.

Lemma not_in_groups vg gs :
  vg ∉ VertexGroupElement.group <$> gs →
  ∀ g, g ∈ gs → VertexGroupElement.group g ≠ vg.
Proof.
  intros Hno g Hg Heq. apply Hno. apply list_elem_of_fmap. by exists g.
Qed.

(** With one entry per group, the loop's search finds the weight of the
    group. *)
Lemma group_weight_unique vg gs :
  NoDup (VertexGroupElement.group <$> gs) →
  group_weight vg gs = entry_sum vg gs.
Proof.
  induction gs as [|g gs IH]; simpl; [done|].
  intros Hnd. apply NoDup_cons in Hnd as [Hnotin Hnd].
  case_decide as Hg; [|by apply IH].
  rewrite entry_sum_none; [ring|].
  apply not_in_groups. by rewrite <- Hg.
Qed.

Lemma groups_replace_in vg w gs :
  vg ∈ VertexGroupElement.group <$> gs →
  VertexGroupElement.group <$> VertexGroup.replace vg w gs
  = VertexGroupElement.group <$> gs.
Proof.
  induction gs as [|g gs IH]; simpl; intros Hin.
  - by apply elem_of_nil in Hin.
  - case_decide as Hg; simpl; [by rewrite Hg|].
    f_equal. apply IH. apply elem_of_cons in Hin as [Hin|Hin]; [congruence|done].
Qed.

Lemma groups_replace_notin vg w gs :
  vg ∉ VertexGroupElement.group <$> gs →
  VertexGroupElement.group <$> VertexGroup.replace vg w gs
  = (VertexGroupElement.group <$> gs) ++ [vg].
Proof.
  induction gs as [|g gs IH]; simpl; intros Hin; [done|].
  case_decide as Hg; simpl.
  - exfalso. apply Hin. rewrite Hg. left.
  - f_equal. apply IH. intros H. apply Hin. by right.
Qed.

Lemma replace_unique vg w gs :
  NoDup (VertexGroupElement.group <$> gs) →
  NoDup (VertexGroupElement.group <$> VertexGroup.replace vg w gs).
Proof.
  intros Hnd.
  destruct (decide (vg ∈ VertexGroupElement.group <$> gs)) as [Hin|Hin].
  - by rewrite groups_replace_in.
  - rewrite groups_replace_notin by done.
    apply NoDup_app. split; [done|]. split.
    + intros n Hn Hn'. apply elem_of_cons in Hn' as [->|Hn']; [done|].
      by apply elem_of_nil in Hn'.
    + apply NoDup_singleton.
Qed.

Lemma entry_sum_replace_eq vg w gs :
  NoDup (VertexGroupElement.group <$> gs) →
  entry_sum vg (VertexGroup.replace vg w gs) = w.
Proof.
  induction gs as [|g gs IH]; simpl; intros Hnd.
  - rewrite decide_True by done. ring.
  - apply NoDup_cons in Hnd as [Hnotin Hnd].
    case_decide as Hg; simpl.
    + rewrite decide_True by done.
      rewrite entry_sum_none; [ring|].
      apply not_in_groups. by rewrite <- Hg.
    + rewrite decide_False by done. by apply IH.
Qed.

Lemma entry_sum_replace_ne vg vg' w gs :
  vg' ≠ vg → entry_sum vg' (VertexGroup.replace vg w gs) = entry_sum vg' gs.
Proof.
  intros Hne. induction gs as [|g gs IH]; simpl.
  - by rewrite decide_False by done.
  - case_decide as Hg; simpl.
    + rewrite !decide_False by congruence. done.
    + by rewrite IH.
Qed.

Lemma elem_of_replace_ne g vg w gs :
  VertexGroupElement.group g ≠ vg →
  g ∈ VertexGroup.replace vg w gs ↔ g ∈ gs.
Proof.
  intros Hne. induction gs as [|g0 gs IH]; simpl.
  - rewrite elem_of_cons. split; [|by intros H; apply elem_of_nil in H].
    intros [->|H]; [by simpl in Hne|by apply elem_of_nil in H].
  - case_decide as Hg.
    + rewrite !elem_of_cons. split.
      * intros [->|H]; [by simpl in Hne|by right].
      * intros [->|H]; [done|by right].
    + rewrite !elem_of_cons, IH. done.
Qed.

Lemma drop_entry_none vg gs :
  (∀ g, g ∈ gs → VertexGroupElement.group g ≠ vg) →
  VertexGroup.drop_entry vg gs = gs.
Proof.
  induction gs as [|g gs IH]; intros Hno; simpl; [done|].
  rewrite decide_False by (apply Hno; left).
  f_equal. apply IH. intros g0 Hg0. apply Hno. by right.
Qed.

Lemma group_weight_none vg gs :
  (∀ g, g ∈ gs → VertexGroupElement.group g ≠ vg) → group_weight vg gs = 0.
Proof.
  induction gs as [|g gs IH]; intros Hno; simpl; [done|].
  rewrite decide_False by (apply Hno; left).
  apply IH. intros g0 Hg0. apply Hno. by right.
Qed.

(** The loop's search returns the weight of an entry of the group, or 0. *)
Lemma group_weight_elem vg gs :
  group_weight vg gs = 0
  ∨ ∃ g, g ∈ gs ∧ VertexGroupElement.group g = vg
         ∧ group_weight vg gs = VertexGroupElement.weight g.
Proof.
  induction gs as [|g gs IH]; simpl; [by left|].
  case_decide as Hg.
  - right. exists g. split; [left|done].
  - destruct IH as [IH|(g' & Hin & Hg' & Heq)]; [by left|].
    right. exists g'. split; [by right|done].
Qed.

Lemma transfer_vertex_alter f h m i :
  transfer_vertex f h m i
  = MkMesh (matrix_world m) (vertex_groups m) (alter (merged f h) i (vertices m)).
Proof.
  unfold transfer_vertex. destruct m as [mw vgs vs]; simpl.
  destruct (vs !! i) as [v|] eqn:Hv.
  - case_decide as Hfw.
    + unfold VertexGroup.add, VertexGroup.weight; simpl. rewrite Hv.
      f_equal. apply list_alter_ext; [|done].
      intros v' Hv'. assert (v' = v) as -> by congruence.
      unfold merged. rewrite decide_True by done.
      rewrite (group_weight_find h).
      by destruct (VertexGroup.find_elem h (MeshVertex.groups v)).
    + f_equal. symmetry. apply list_eq. intros j.
      rewrite list_lookup_alter. case_decide as Hj; [|done].
      subst j. rewrite Hv. simpl. unfold merged. by rewrite decide_False.
  - f_equal. symmetry. apply list_eq. intros j.
    rewrite list_lookup_alter. case_decide as Hj; [|done].
    subst j. by rewrite Hv.
Qed.

Lemma foldl_transfer_vertex f h m (idx : list nat) :
  foldl (transfer_vertex f h) m idx
  = MkMesh (matrix_world m) (vertex_groups m)
      (foldl (λ vs i, alter (merged f h) i vs) (vertices m) idx).
Proof.
  revert m. induction idx as [|i idx IH]; intros m; simpl.
  - by destruct m.
  - rewrite IH, transfer_vertex_alter. done.
Qed.

Lemma foldl_alter_seq {A} (g : A → A) (l : list A) (k n j : nat) :
  foldl (λ vs i, alter g i vs) l (seq k n) !! j
  = if decide (k ≤ j < k + n)%nat then g <$> l !! j else l !! j.
Proof.
  revert l k. induction n as [|n IH]; intros l k; simpl.
  - case_decide; [lia|done].
  - rewrite IH, list_lookup_alter.
    repeat case_decide; try lia; try done. by subst.
Qed.

Lemma foldl_alter_all {A} (g : A → A) (l : list A) :
  foldl (λ vs i, alter g i vs) l (seq 0 (length l)) = g <$> l.
Proof.
  apply list_eq. intros j. rewrite foldl_alter_seq, list_lookup_fmap.
  case_decide as Hj; [done|].
  rewrite lookup_ge_None_2 by lia. done.
Qed.

Lemma transfer_eq f h m :
  transfer f h m
  = MkMesh (matrix_world m) (filter (λ n, n ≠ f) (vertex_groups m))
      ((λ v, VertexGroup.drop f (merged f h v)) <$> vertices m).
Proof.
  unfold transfer. rewrite foldl_transfer_vertex, foldl_alter_all.
  unfold VertexGroup.remove. simpl. by rewrite <- list_fmap_compose.
Qed.

End vertex_group_facts.

(** ** The weight transfer (section 3 of the script) *)

Section weight_transfer.

Import ExportHand.
Local Open Scope Qc_scope.

Lemma group_weight_valid vg v :
  weights_valid v →
  0 ≤ group_weight vg (MeshVertex.groups v) ∧
  group_weight vg (MeshVertex.groups v) ≤ 1.
Proof.
  intros Hv.
  destruct (group_weight_elem vg (MeshVertex.groups v))
    as [->|(g & Hg & _ & ->)]; [by vm_compute|by apply Hv].
Qed.

Lemma min_le_1 a : min a 1 ≤ 1.
Proof.
  unfold min. case_decide as H; [apply Qcle_refl|]. by apply Qcnot_lt_le.
Qed.

Lemma min_id a : a ≤ 1 → min a 1 = a.
Proof.
  intros Ha. unfold min. case_decide as H; [|done].
  by apply Qcle_not_lt in Ha.
Qed.

Lemma transfer_weights_run m :
  "forearm.L" ∈ vertex_groups m → "hand.L" ∈ vertex_groups m →
  transfer_weights m = ([Transferred], inr (transfer "forearm.L" "hand.L" m)).
Proof.
  intros Hf Hh. unfold transfer_weights, merge_groups, VertexGroup.get.
  by rewrite !decide_True by done.
Qed.

(** The hand.L weight of a vertex after one turn of the loop. *)
Lemma stored_weight_merged v :
  entries_unique v → weights_valid v →
  stored_weight "hand.L" (merged "forearm.L" "hand.L" v)
  = min (stored_weight "hand.L" v + stored_weight "forearm.L" v) 1.
Proof.
  intros Hu Hv. unfold stored_weight, merged.
  rewrite !group_weight_unique by done.
  destruct (group_weight_valid "forearm.L" v Hv) as [Hf0 _].
  destruct (group_weight_valid "hand.L" v Hv) as [_ Hh1].
  rewrite !group_weight_unique in * by done.
  case_decide as Hfw; simpl.
  - by rewrite entry_sum_replace_eq.
  - apply Qcnot_lt_le in Hfw.
    assert (entry_sum "forearm.L" (MeshVertex.groups v) = 0) as ->
      by by apply Qcle_antisym.
    rewrite Qcplus_0_r, min_id by done. done.
Qed.

Lemma merged_unique v :
  entries_unique v → entries_unique (merged "forearm.L" "hand.L" v).
Proof.
  intros Hu. unfold merged. case_decide; [|done].
  unfold entries_unique. simpl. by apply replace_unique.
Qed.

Lemma vertices_remove_all (l : list string) m :
  vertices (foldl (λ m vg, VertexGroup.remove vg m) m l)
  = (λ v, MeshVertex.Build (MeshVertex.co v) (drop_all l (MeshVertex.groups v)))
      <$> vertices m.
Proof.
  revert m. induction l as [|vg l IH]; intros m; simpl.
  - rewrite <- (list_fmap_id (vertices m)) at 1.
    apply list_fmap_ext. by intros ? [].
  - rewrite IH. simpl. rewrite <- list_fmap_compose.
    apply list_fmap_ext. by intros ? [].
Qed.

Lemma entry_sum_drop_all vg (l : list string) gs :
  vg ∉ l → entry_sum vg (drop_all l gs) = entry_sum vg gs.
Proof.
  revert gs. induction l as [|a l IH]; intros gs Hno; simpl; [done|].
  rewrite IH by (intros H; apply Hno; by right).
  apply entry_sum_drop_ne. intros ->. apply Hno. left.
Qed.

(** C3, amended.  When the script's transfer runs (both groups exist), a
    vertex ends with a hand.L weight equal to its old hand.L weight plus
    its forearm.L weight, missing entries counting as 0, cut off at 1; so
    it never exceeds 1, and no forearm.L weight is left.  The weights are
    read off the entries of the vertex, not through the script's search.
    The removal of the unused groups that follows leaves the hand.L
    weight as the transfer wrote it: no other group is added to it.  A
    vertex with forearm.L 0.8 and hand.L 0.6 ends with hand.L 1 and
    nothing else. *)
Theorem transfer_weights_sum_clamped :
  (∀ m i v,
      "forearm.L" ∈ vertex_groups m → "hand.L" ∈ vertex_groups m →
      vertices m !! i = Some v → entries_unique v → weights_valid v →
      (∃ m' v',
          transfer_weights m = ([Transferred], inr m') ∧
          vertices m' !! i = Some v' ∧
          stored_weight "hand.L" v'
          = min (stored_weight "hand.L" v + stored_weight "forearm.L" v) 1 ∧
          stored_weight "hand.L" v' ≤ 1 ∧
          stored_weight "forearm.L" v' = 0) ∧
      (∃ out m'' v'',
          transfer_then_cleanup m = (out, inr m'') ∧
          vertices m'' !! i = Some v'' ∧
          stored_weight "hand.L" v''
          = min (stored_weight "hand.L" v + stored_weight "forearm.L" v) 1))
  ∧ (∃ m',
        transfer_weights example_mesh = ([Transferred], inr m') ∧
        MeshVertex.groups <$> vertices m'
        = [[VertexGroupElement.Build "hand.L" 1]]).
Proof.
  split.
  - intros m i v Hf Hh Hi Hu Hv.
    assert (stored_weight "hand.L"
              (VertexGroup.drop "forearm.L" (merged "forearm.L" "hand.L" v))
            = min (stored_weight "hand.L" v + stored_weight "forearm.L" v) 1)
      as Hsum.
    { rewrite <- stored_weight_merged by done.
      unfold stored_weight, VertexGroup.drop. cbn [MeshVertex.groups].
      by apply entry_sum_drop_ne. }
    split.
    + eexists _, _. split; [by apply transfer_weights_run|].
      rewrite transfer_eq. cbn [vertices]. rewrite list_lookup_fmap, Hi.
      split; [reflexivity|]. split; [exact Hsum|]. split.
      * rewrite Hsum. apply min_le_1.
      * unfold stored_weight, VertexGroup.drop. cbn [MeshVertex.groups].
        apply entry_sum_drop_eq. by apply merged_unique.
    + unfold transfer_then_cleanup. rewrite transfer_weights_run by done.
      unfold remove_unused, bind, print, ret. cbn [fst snd].
      eexists _, _, _. split; [reflexivity|].
      rewrite vertices_remove_all, transfer_eq. cbn [vertices].
      rewrite !list_lookup_fmap, Hi. split; [reflexivity|].
      rewrite <- Hsum. unfold stored_weight. cbn [MeshVertex.groups].
      apply entry_sum_drop_all.
      intros Hin. apply list_elem_of_filter in Hin as [Hr _].
      by vm_compute in Hr.
  - eexists. split; [reflexivity|].
    apply bool_decide_eq_true_1 with (Decision0 := decide _).
    by vm_compute.
Qed.

(** The transfer at the example mesh, through the general statement. *)
Lemma transfer_weights_sum_clamped_witness :
  ∃ m' v',
    transfer_weights example_mesh = ([Transferred], inr m') ∧
    vertices m' !! 0%nat = Some v' ∧
    stored_weight "hand.L" v'
    = min (stored_weight "hand.L" example_vertex
           + stored_weight "forearm.L" example_vertex) 1 ∧
    stored_weight "hand.L" v' ≤ 1 ∧
    stored_weight "forearm.L" v' = 0.
Proof.
  apply (proj1 transfer_weights_sum_clamped example_mesh 0%nat example_vertex).
  - simpl. set_solver.
  - simpl. set_solver.
  - reflexivity.
  - by_compute.
  - intros g Hg. unfold example_vertex in Hg. simpl in Hg.
    apply elem_of_cons in Hg as [->|Hg]; [by vm_compute|].
    apply elem_of_cons in Hg as [->|Hg]; [by vm_compute|].
    by apply elem_of_nil in Hg.
Defined.

(** C9. The transfer leaves the rest alone.  A vertex keeps its
    position; its entries for the groups other than forearm.L and hand.L
    are the same before and after, and so is its weight in each of these
    groups; a vertex with no positive forearm.L weight keeps its hand.L
    entries and its hand.L weight; and a vertex with no forearm.L entry
    keeps all its entries, in their order. *)
Theorem transfer_weights_frame m i v :
  vertices m !! i = Some v →
  ∃ out m' v',
    transfer_weights m = (out, inr m') ∧
    vertices m' !! i = Some v' ∧
    MeshVertex.co v' = MeshVertex.co v ∧
    (∀ g, VertexGroupElement.group g ≠ "forearm.L" →
          VertexGroupElement.group g ≠ "hand.L" →
          g ∈ MeshVertex.groups v' ↔ g ∈ MeshVertex.groups v) ∧
    (∀ vg, vg ≠ "forearm.L" → vg ≠ "hand.L" →
           stored_weight vg v' = stored_weight vg v) ∧
    ((∀ g, g ∈ MeshVertex.groups v → VertexGroupElement.group g = "forearm.L" →
           ¬ 0 < VertexGroupElement.weight g) →
     (∀ g, VertexGroupElement.group g = "hand.L" →
           g ∈ MeshVertex.groups v' ↔ g ∈ MeshVertex.groups v) ∧
     stored_weight "hand.L" v' = stored_weight "hand.L" v) ∧
    ((∀ g, g ∈ MeshVertex.groups v → VertexGroupElement.group g ≠ "forearm.L") →
     MeshVertex.groups v' = MeshVertex.groups v).
Proof.
  intros Hi. unfold transfer_weights, merge_groups, VertexGroup.get.
  destruct (decide ("forearm.L" ∈ vertex_groups m)) as [Hf|Hf];
    [destruct (decide ("hand.L" ∈ vertex_groups m)) as [Hh|Hh]|]; simpl.
  - eexists _, _, _. split; [done|].
    rewrite transfer_eq. simpl. rewrite list_lookup_fmap, Hi. simpl.
    split; [done|].
    assert (∀ g, VertexGroupElement.group g ≠ "forearm.L" →
              g ∈ VertexGroup.drop_entry "forearm.L"
                    (MeshVertex.groups (merged "forearm.L" "hand.L" v))
              ↔ g ∈ MeshVertex.groups (merged "forearm.L" "hand.L" v)) as Hdrop.
    { intros g Hg. split; [apply elem_of_drop_entry|].
      intros Hin. by apply elem_of_drop_entry_ne. }
    split; [|split; [|split; [|split]]].
    + unfold merged. by case_decide.
    + intros g Hgf Hgh. rewrite Hdrop by done.
      unfold merged. case_decide; [simpl|done].
      by apply elem_of_replace_ne.
    + intros vg Hvf Hvh. unfold stored_weight, VertexGroup.drop.
      cbn [MeshVertex.groups]. rewrite entry_sum_drop_ne by done.
      unfold merged. case_decide; [simpl|done].
      by apply entry_sum_replace_ne.
    + intros Hno.
      assert (merged "forearm.L" "hand.L" v = v) as Hsame.
      { unfold merged. rewrite decide_False; [done|].
        destruct (group_weight_elem "forearm.L" (MeshVertex.groups v))
          as [->|(g' & Hin & Hg' & ->)]; [by vm_compute|by apply Hno]. }
      rewrite Hsame in *. split.
      * intros g Hg. apply Hdrop. by rewrite Hg.
      * unfold stored_weight, VertexGroup.drop. cbn [MeshVertex.groups].
        by apply entry_sum_drop_ne.
    + intros Hno. unfold merged.
      rewrite group_weight_none by done.
      rewrite decide_False by (by vm_compute).
      by apply drop_entry_none.
  - eexists _, _, _. split; [done|]. split; [done|]. by repeat split.
  - eexists _, _, _. split; [done|]. split; [done|]. by repeat split.
Qed.

(** The frame at the two vertices of [frame_mesh]: the first has a finger
    weight next to forearm.L and hand.L, the second has no forearm.L
    weight. *)
Lemma transfer_weights_frame_witness :
  (∃ out m' v',
      transfer_weights frame_mesh = (out, inr m') ∧
      vertices m' !! 0%nat = Some v' ∧
      (VertexGroupElement.Build "thumb.01.L" (Q2Qc (2 # 10))
       ∈ MeshVertex.groups v') ∧
      stored_weight "thumb.01.L" v' = stored_weight "thumb.01.L" frame_vertex)
  ∧ (∃ out m' v',
      transfer_weights frame_mesh = (out, inr m') ∧
      vertices m' !! 1%nat = Some v' ∧
      MeshVertex.groups v' = MeshVertex.groups frame_vertex_no_forearm).
Proof.
  split.
  - destruct (transfer_weights_frame frame_mesh 0%nat frame_vertex eq_refl)
      as (out & m' & v' & Hrun & Hv' & _ & Hother & Hweight & _).
    exists out, m', v'. split; [exact Hrun|]. split; [exact Hv'|]. split.
    + apply Hother; [discriminate|discriminate|]. left.
    + apply Hweight; discriminate.
  - destruct (transfer_weights_frame frame_mesh 1%nat frame_vertex_no_forearm
                eq_refl)
      as (out & m' & v' & Hrun & Hv' & _ & _ & _ & _ & Hsame).
    exists out, m', v'. split; [exact Hrun|]. split; [exact Hv'|].
    apply Hsame. intros g Hg.
    apply elem_of_cons in Hg as [->|Hg]; [discriminate|].
    apply elem_of_cons in Hg as [->|Hg]; [discriminate|].
    by apply elem_of_nil in Hg.
Defined.

(** The transfer at [frame_mesh], evaluated: the finger weights are as
    they were, the forearm.L entry is gone, hand.L has 0.3 + 0.4, and the
    vertex without forearm.L weight is untouched. *)
Example transfer_weights_frame_mesh :
  transfer_weights frame_mesh =
  ([Transferred],
   inr (MkMesh Identity ["hand.L"; "thumb.01.L"]
          [MeshVertex.Build (Vec 0 0 0)
             [VertexGroupElement.Build "thumb.01.L" (Q2Qc (2 # 10));
              VertexGroupElement.Build "hand.L" (Q2Qc (7 # 10))];
           frame_vertex_no_forearm])).
Proof. by_compute. Qed.

(** C10. Without a forearm.L group or without a hand.L group the
    transfer is skipped: nothing is printed, nothing is raised and the
    mesh, groups and weights alike, is returned as it was. *)
Theorem transfer_weights_skipped m :
  "forearm.L" ∉ vertex_groups m ∨ "hand.L" ∉ vertex_groups m →
  transfer_weights m = ([], inr m).
Proof.
  intros H. unfold transfer_weights, merge_groups, VertexGroup.get.
  destruct H as [H|H].
  - by rewrite decide_False.
  - rewrite (decide_False (P := "hand.L" ∈ _)) by done. by case_decide.
Qed.

Lemma transfer_weights_skipped_witness :
  ("forearm.L" ∉ vertex_groups mesh_without_hand_group
   ∨ "hand.L" ∉ vertex_groups mesh_without_hand_group)
  ∧ transfer_weights mesh_without_hand_group = ([], inr mesh_without_hand_group).
Proof.
  assert ("forearm.L" ∉ vertex_groups mesh_without_hand_group
          ∨ "hand.L" ∉ vertex_groups mesh_without_hand_group) as H.
  { right. simpl. intros Hin. apply elem_of_cons in Hin as [Hin|Hin];
      [discriminate|by apply elem_of_nil in Hin]. }
  split; [exact H|]. exact (transfer_weights_skipped _ H).
Defined.

End weight_transfer.

(** ** The hierarchy of bones *)

Section hierarchy.

Import ExportHand.

Implicit Types (bones : list EditBone.t) (b : EditBone.t) (n : string).

Lemma get_Some n bones b :
  EditBones.get n bones = Some b → b ∈ bones ∧ EditBone.name b = n.
Proof.
  intros H. apply find_some in H as [Hin Hn].
  split; [by apply list_elem_of_In|]. by apply bool_decide_eq_true_1 in Hn.
Qed.

Lemma get_None n bones :
  EditBones.get n bones = None → n ∉ EditBones.names bones.
Proof.
  intros H Hin. apply list_elem_of_fmap in Hin as (b & -> & Hb).
  apply list_elem_of_In in Hb.
  pose proof (find_none _ _ H b Hb) as Hf. simpl in Hf.
  by apply bool_decide_eq_false_1 in Hf.
Qed.

Lemma get_is_Some n bones :
  n ∈ EditBones.names bones → is_Some (EditBones.get n bones).
Proof.
  intros Hin. destruct (EditBones.get n bones) eqn:Hg; [done|].
  by apply get_None in Hg.
Qed.

Lemma get_NoDup bones b :
  NoDup (EditBones.names bones) → b ∈ bones →
  EditBones.get (EditBone.name b) bones = Some b.
Proof.
  unfold EditBones.get, EditBones.names.
  induction bones as [|a bones IH]; intros Hnd Hin; [by apply elem_of_nil in Hin|].
  rewrite fmap_cons in Hnd. apply NoDup_cons in Hnd as [Ha Hnd]. simpl.
  apply elem_of_cons in Hin as [->|Hin].
  - by rewrite bool_decide_eq_true_2.
  - rewrite bool_decide_eq_false_2; [by apply IH|].
    intros Heq. apply Ha. rewrite Heq. apply list_elem_of_fmap. eauto.
Qed.

(** *** What [collect] gathers *)

Lemma collect_children_raise limit bones e cs :
  foldl (λ acc c,
           match acc with
           | inr keep' => collect limit bones (EditBone.name c) keep'
           | inl e => inl e
           end) (inl e) cs = inl e.
Proof. induction cs as [|c cs IH]; simpl; done. Qed.

Lemma collect_spec limit bones bone keep keep' :
  collect limit bones bone keep = inr keep' →
  ∀ n, n ∈ keep' ↔ n ∈ keep ∨ in_subtree bones bone n.
Proof.
  unfold in_subtree.
  revert bone keep keep'. induction limit as [|limit IH]; intros bone keep keep'; [done|].
  simpl. intros Hrun.
  assert (∀ cs k0 k',
    foldl (λ acc c,
             match acc with
             | inr keep' => collect limit bones (EditBone.name c) keep'
             | inl e => inl e
             end) (inr k0) cs = inr k' →
    ∀ n, n ∈ k' ↔ n ∈ k0 ∨ ∃ c, c ∈ cs ∧ rtc (parent_link bones) n (EditBone.name c))
    as Hloop.
  { induction cs as [|c cs IHcs]; intros k0 k'; simpl.
    - intros [= ->] n. split; [by left|]. intros [?|(c & Hc & _)]; [done|].
      by apply elem_of_nil in Hc.
    - destruct (collect limit bones (EditBone.name c) k0) as [e|k1] eqn:Hc.
      + by rewrite collect_children_raise.
      + intros Hrest n. rewrite (IHcs _ _ Hrest n), (IH _ _ _ Hc n).
        split.
        * intros [[?|?]|(c' & Hc' & ?)]; [by left| |].
          -- right. exists c. split; [apply list_elem_of_here|done].
          -- right. exists c'. split; [by apply list_elem_of_further|done].
        * intros [?|(c' & Hc' & ?)]; [by left; left|].
          apply elem_of_cons in Hc' as [->|Hc']; [by left; right|].
          right. eauto. }
  intros n. rewrite (Hloop _ _ _ Hrun n). split.
  - intros [Hn|(c & Hc & Hrtc)].
    + apply elem_of_union in Hn as [Hn|Hn]; [|by left].
      apply elem_of_singleton in Hn as ->. right. apply rtc_refl.
    + right. eapply rtc_r; [exact Hrtc|].
      apply list_elem_of_filter in Hc as [Hp Hc]. by exists c.
  - intros [Hn|Hrtc]; [left; apply elem_of_union; by right|].
    apply rtc_inv_r in Hrtc as [->|(c & Hrtc & b & Hb & <- & Hp)].
    { left. apply elem_of_union. left. by apply elem_of_singleton. }
    right. exists b. split; [|done]. by apply list_elem_of_filter.
Qed.

(** *** When [collect] returns *)

Lemma collect_returns (rk : string → nat) bones :
  (∀ b p, b ∈ bones → EditBone.parent b = Some p → rk (EditBone.name b) < rk p) →
  ∀ limit bone keep, rk bone < limit → ∃ keep', collect limit bones bone keep = inr keep'.
Proof.
  intros Hrk. induction limit as [|limit IH]; intros bone keep Hlt; [lia|].
  simpl.
  assert (∀ cs k0, (∀ c, c ∈ cs → rk (EditBone.name c) < limit) →
    ∃ k', foldl (λ acc c,
             match acc with
             | inr keep' => collect limit bones (EditBone.name c) keep'
             | inl e => inl e
             end) (inr k0) cs = inr k') as Hloop.
  { induction cs as [|c cs IHcs]; intros k0 Hcs; simpl; [by eexists|].
    destruct (IH (EditBone.name c) k0) as [k1 ->].
    - apply Hcs, list_elem_of_here.
    - apply IHcs. intros c' Hc'. by apply Hcs, list_elem_of_further. }
  apply Hloop. intros c Hc.
  apply list_elem_of_filter in Hc as [Hp Hc].
  specialize (Hrk c bone Hc Hp). lia.
Qed.

Lemma depth_lt fuel bones n d : depth fuel bones n = Some d → d < fuel.
Proof.
  revert n d. induction fuel as [|fuel IH]; intros n d; simpl; [done|].
  destruct (parent_of bones n) as [p|]; [|intros [= <-]; lia].
  destruct (depth fuel bones p) as [d'|] eqn:Hd; simpl; [|done].
  intros [= <-]. apply IH in Hd. lia.
Qed.

Lemma depth_mono fuel bones n d :
  depth fuel bones n = Some d → depth (S fuel) bones n = Some d.
Proof.
  revert n d. induction fuel as [|fuel IH]; intros n d; [done|].
  intros H. simpl in H. change (depth (S (S fuel)) bones n) with
    (match parent_of bones n with
     | None => Some O
     | Some p => S <$> depth (S fuel) bones p
     end).
  destruct (parent_of bones n) as [p|]; [|done].
  destruct (depth fuel bones p) as [d'|] eqn:Hd; simpl in H; [|done].
  by rewrite (IH _ _ Hd).
Qed.

Lemma rank_decreases bones b p :
  NoDup (EditBones.names bones) → acyclic bones →
  b ∈ bones → EditBone.parent b = Some p →
  rank bones (EditBone.name b) < rank bones p.
Proof.
  intros Hnd Hac Hb Hp.
  assert (parent_of bones (EditBone.name b) = Some p) as Hpo.
  { unfold parent_of. by rewrite get_NoDup. }
  unfold acyclic in Hac. rewrite Forall_forall in Hac.
  destruct (Hac (EditBone.name b)) as [d Hd].
  { apply list_elem_of_fmap. eauto. }
  unfold rank. rewrite Hd.
  destruct (length bones) as [|L] eqn:HL; [done|].
  simpl in Hd. rewrite Hpo in Hd.
  destruct (depth L bones p) as [dp|] eqn:Hdp; simpl in Hd; [|done].
  injection Hd as <-.
  rewrite (depth_mono _ _ _ _ Hdp). apply depth_lt in Hdp. lia.
Qed.

Lemma rank_le bones n : rank bones n ≤ length bones.
Proof. unfold rank. destruct (depth _ _ _); lia. Qed.

Lemma collect_acyclic limit bones bone keep :
  NoDup (EditBones.names bones) → acyclic bones → length bones < limit →
  ∃ keep', collect limit bones bone keep = inr keep'.
Proof.
  intros Hnd Hac Hlim.
  apply (collect_returns (rank bones)).
  - intros b p. by apply rank_decreases.
  - pose proof (rank_le bones bone). lia.
Qed.

(** *** The deletion loop *)

Lemma names_remove n n' bones :
  n' ∈ EditBones.names (EditBones.remove n bones)
  ↔ n' ∈ EditBones.names bones ∧ n' ≠ n.
Proof.
  unfold EditBones.names, EditBones.remove. rewrite <- list_fmap_compose.
  rewrite !list_elem_of_fmap. split.
  - intros (b & -> & Hb). apply list_elem_of_filter in Hb as [Hn Hb].
    simpl. case_decide; simpl; split; eauto.
  - intros [(b & -> & Hb) Hn]. exists b. split.
    + simpl. by case_decide.
    + by apply list_elem_of_filter.
Qed.

Lemma names_delete_bones (l : list string) bones n :
  n ∈ EditBones.names (delete_bones l bones)
  ↔ n ∈ EditBones.names bones ∧ n ∉ l.
Proof.
  unfold delete_bones.
  revert bones. induction l as [|bname l IH]; intros bones; simpl.
  - split; [intros ?; split; [done|apply not_elem_of_nil]|by intros [? _]].
  - rewrite IH, not_elem_of_cons.
    destruct (EditBones.get bname bones) as [b|] eqn:Hg.
    + apply get_Some in Hg as [_ ->]. rewrite names_remove. tauto.
    + apply get_None in Hg. split; [|tauto].
      intros [Hn Hl]. repeat split; try done. by intros ->.
Qed.

Lemma names_update n f bones :
  (∀ b, EditBone.name (f b) = EditBone.name b) →
  EditBones.names (EditBones.update n f bones) = EditBones.names bones.
Proof.
  intros Hf. unfold EditBones.names, EditBones.update.
  rewrite <- list_fmap_compose. apply list_fmap_ext.
  intros i b _. simpl. by case_decide.
Qed.

Lemma elem_of_to_delete keep bones n :
  n ∈ to_delete keep bones ↔ n ∈ EditBones.names bones ∧ n ∉ keep.
Proof.
  unfold to_delete, EditBones.names. rewrite !list_elem_of_fmap. split.
  - intros (b & -> & Hb). apply list_elem_of_filter in Hb as [? ?]. eauto.
  - intros [(b & -> & Hb) Hk]. exists b. split; [done|].
    by apply list_elem_of_filter.
Qed.

Lemma names_pruned keep bones n :
  n ∈ EditBones.names (pruned keep bones) ↔ n ∈ EditBones.names bones ∧ n ∈ keep.
Proof.
  unfold pruned. rewrite names_update by done.
  rewrite names_delete_bones, elem_of_to_delete.
  split; [|tauto]. intros [Hn Hd]. split; [done|].
  destruct (decide (n ∈ keep)); [done|]. destruct Hd. done.
Qed.

(** Section 4 of the script, once [collect] has returned [keep]. *)
Lemma keep_hand_subtree_run limit bones keep :
  "hand.L" ∈ EditBones.names bones →
  collect limit bones "hand.L" ∅ = inr keep →
  keep_hand_subtree limit bones = ([Keeping (size keep)], inr (pruned keep bones)).
Proof.
  intros Hh Hc. unfold keep_hand_subtree.
  destruct (get_is_Some _ _ Hh) as [hand_l Hg]. rewrite Hg.
  destruct (get_Some _ _ _ Hg) as [_ Hname]. simpl. rewrite Hname.
  unfold lift. rewrite Hc. simpl.
  assert ("hand.L" ∈ EditBones.names (delete_bones (to_delete keep bones) bones)) as Hkept.
  { rewrite names_delete_bones, elem_of_to_delete. split; [done|].
    intros [_ Hk]. apply Hk. apply (collect_spec _ _ _ _ _ Hc). right. apply rtc_refl. }
  destruct (get_is_Some _ _ Hkept) as [hand_l' Hg']. rewrite Hg'.
  destruct (get_Some _ _ _ Hg') as [_ Hname']. cbn. rewrite Hname'. done.
Qed.

Lemma elem_of_remove n bones b' :
  b' ∈ EditBones.remove n bones →
  ∃ b, b ∈ bones ∧ EditBone.name b ≠ n ∧ same_bone b' b ∧
       (EditBone.parent b' = EditBone.parent b ∨ EditBone.parent b = Some n).
Proof.
  unfold EditBones.remove. intros H.
  apply list_elem_of_fmap in H as (b & -> & Hb).
  apply list_elem_of_filter in Hb as [Hn Hb].
  exists b. repeat split; try done; case_decide; simpl; auto.
Qed.

Lemma elem_of_delete_bones (l : list string) bones b' :
  b' ∈ delete_bones l bones →
  ∃ b, b ∈ bones ∧ (EditBone.name b ∉ l) ∧ same_bone b' b ∧
       (EditBone.parent b' = EditBone.parent b
        ∨ ∃ d, d ∈ l ∧ EditBone.parent b = Some d).
Proof.
  unfold delete_bones.
  revert bones. induction l as [|d l IH]; intros bones; simpl.
  - intros Hb. exists b'. repeat split; auto. apply not_elem_of_nil.
  - intros Hb. apply IH in Hb as (b1 & Hb1 & Hl & (Hn1 & Hh1 & Ht1) & Hp1).
    destruct (EditBones.get d bones) as [x|] eqn:Hg.
    + apply get_Some in Hg as [_ Hx]. rewrite Hx in Hb1.
      apply elem_of_remove in Hb1 as (b & Hb & Hd & (Hn & Hh & Ht) & Hp).
      exists b. split; [done|]. split.
      { rewrite not_elem_of_cons. split; [done|]. by rewrite <- Hn. }
      split; [repeat split; congruence|].
      destruct Hp as [Hp|Hpd].
      * destruct Hp1 as [Hp1|(d' & Hd' & Hpd')]; [left; congruence|].
        right. exists d'. split; [by apply list_elem_of_further|congruence].
      * right. exists d. split; [apply list_elem_of_here|done].
    + apply get_None in Hg. exists b1. split; [done|]. split.
      { rewrite not_elem_of_cons. split; [|done].
        intros Heq. apply Hg. rewrite <- Heq. apply list_elem_of_fmap. eauto. }
      split; [done|].
      destruct Hp1 as [Hp1|(d' & Hd' & Hpd')]; [by left|].
      right. exists d'. split; [by apply list_elem_of_further|done].
Qed.

Lemma NoDup_names_inj bones b1 b2 :
  NoDup (EditBones.names bones) → b1 ∈ bones → b2 ∈ bones →
  EditBone.name b1 = EditBone.name b2 → b1 = b2.
Proof.
  intros Hnd H1 H2 Hn.
  pose proof (get_NoDup _ _ Hnd H1) as G1.
  pose proof (get_NoDup _ _ Hnd H2) as G2.
  rewrite Hn in G1. congruence.
Qed.

(** C2. On a forest with unique bone names that has a hand.L bone, and
    with a recursion limit above the number of bones, section 4 returns;
    the bones left are exactly hand.L and its transitive descendants,
    hand.L has no parent, and every bone left is a bone of the input
    with its head and tail, and, hand.L apart, its parent. *)
Theorem keep_hand_subtree_exact limit bones :
  NoDup (EditBones.names bones) → acyclic bones →
  "hand.L" ∈ EditBones.names bones → length bones < limit →
  ∃ out bones',
    keep_hand_subtree limit bones = (out, inr bones') ∧
    (∀ n, n ∈ EditBones.names bones'
          ↔ n ∈ EditBones.names bones ∧ in_subtree bones "hand.L" n) ∧
    (∀ b', b' ∈ bones' → EditBone.name b' = "hand.L" → EditBone.parent b' = None) ∧
    (∀ b', b' ∈ bones' →
           ∃ b, b ∈ bones ∧ same_bone b' b ∧
                (EditBone.name b' ≠ "hand.L" → EditBone.parent b' = EditBone.parent b)).
Proof.
  intros Hnd Hac Hh Hlim.
  destruct (collect_acyclic limit bones "hand.L" ∅ Hnd Hac Hlim) as [keep Hc].
  pose proof (collect_spec _ _ _ _ _ Hc) as Hkeep.
  exists [Keeping (size keep)], (pruned keep bones).
  split; [by apply keep_hand_subtree_run|]. split; [|split].
  - intros n. rewrite names_pruned, Hkeep.
    split; intros [? H]; (split; [done|]); [|by right].
    destruct H as [H|H]; [|done]. by apply not_elem_of_empty in H.
  - unfold pruned, EditBones.update. intros b' Hb' Hn.
    apply list_elem_of_fmap in Hb' as (b1 & -> & Hb1).
    case_decide as Hd; [done|]. done.
  - unfold pruned, EditBones.update. intros b' Hb'.
    apply list_elem_of_fmap in Hb' as (b1 & -> & Hb1).
    apply elem_of_delete_bones in Hb1 as (b & Hb & Hdel & (Hn & Hhd & Htl) & Hp).
    exists b. split; [done|]. split.
    { case_decide; repeat split; simpl; congruence. }
    case_decide as Hd; [simpl; congruence|]. intros _.
    destruct Hp as [Hp|(d & Hdl & Hpd)]; [done|]. exfalso.
    apply elem_of_to_delete in Hdl as [_ Hdk].
    assert (EditBone.name b ∈ keep) as Hbk.
    { destruct (decide (EditBone.name b ∈ keep)) as [|Hno]; [done|].
      destruct Hdel. apply elem_of_to_delete. split; [|done].
      apply list_elem_of_fmap. eauto. }
    apply Hkeep in Hbk as [Hbk|Hbk]; [by apply not_elem_of_empty in Hbk|].
    apply rtc_inv in Hbk as [Heq|(y & (b2 & Hb2 & Hn2 & Hp2) & Hrtc)]; [congruence|].
    assert (b2 = b) as -> by by apply (NoDup_names_inj bones).
    assert (y = d) as -> by congruence.
    apply Hdk, Hkeep. by right.
Qed.

Example keep_hand_subtree_arm :
  keep_hand_subtree 10 arm_bones
  = ([Keeping 2],
     inr [bone_at "hand.L" None 2 1 0;
          bone_at "finger_middle.01.L" (Some "hand.L") 3 1 0]).
Proof. by_compute. Qed.

Lemma keep_hand_subtree_exact_witness :
  ∃ out bones',
    keep_hand_subtree 10 arm_bones = (out, inr bones') ∧
    (∀ n, n ∈ EditBones.names bones'
          ↔ n ∈ EditBones.names arm_bones ∧ in_subtree arm_bones "hand.L" n) ∧
    (∀ b', b' ∈ bones' → EditBone.name b' = "hand.L" → EditBone.parent b' = None) ∧
    (∀ b', b' ∈ bones' →
           ∃ b, b ∈ arm_bones ∧ same_bone b' b ∧
                (EditBone.name b' ≠ "hand.L" → EditBone.parent b' = EditBone.parent b)).
Proof.
  apply (keep_hand_subtree_exact 10 arm_bones).
  - by_compute.
  - by_compute.
  - by_compute.
  - simpl. lia.
Defined.

End hierarchy.

(** ** Mirror and translation (the end of section 4, and section 5) *)

Section rebasing.

Import ExportHand.
Local Open Scope Qc_scope.

Implicit Types (bones : list EditBone.t) (b : EditBone.t) (n : string).

Lemma get_fmap (f : EditBone.t → EditBone.t) n bones :
  (∀ b, EditBone.name (f b) = EditBone.name b) →
  EditBones.get n (f <$> bones) = f <$> EditBones.get n bones.
Proof.
  intros Hf. unfold EditBones.get.
  induction bones as [|b bones IH]; [done|].
  rewrite fmap_cons. simpl. rewrite Hf.
  case_bool_decide; [done|apply IH].
Qed.

Lemma sub_self v : sub v v = zero.
Proof. unfold sub, zero. f_equal; ring. Qed.

Lemma mul_Translation_neg offset v : mul (Translation (neg offset)) v = sub v offset.
Proof. unfold mul, Translation, neg, sub, dot. simpl. f_equal; ring. Qed.

Lemma mul_MirrorX v : mul MirrorX v = mirror_x v.
Proof. unfold mul, MirrorX, mirror_x, dot. simpl. f_equal; ring. Qed.

(** *** Writes keep names, parents and connections *)

Lemma shape_fmap (f : EditBone.t → EditBone.t) bones :
  (∀ b, shape (f b) = shape b) → shape <$> (f <$> bones) = shape <$> bones.
Proof.
  intros Hf. rewrite <- list_fmap_compose. apply list_fmap_ext.
  intros i b _. apply Hf.
Qed.

Lemma shape_alter (f : EditBone.t → EditBone.t) i bones :
  (∀ b, shape (f b) = shape b) → shape <$> alter f i bones = shape <$> bones.
Proof.
  intros Hf. apply list_eq. intros j.
  rewrite !list_lookup_fmap, list_lookup_alter.
  case_decide as Hj; [|done]. subst j.
  destruct (bones !! i); simpl; [by rewrite Hf|done].
Qed.

Lemma shape_transform_update i bones :
  shape <$> EditBones.transform_update i bones = shape <$> bones.
Proof.
  unfold EditBones.transform_update.
  destruct (bones !! i) as [ebone|]; [|done].
  rewrite shape_fmap by (intros b; by case_decide).
  destruct (EditBone.parent ebone) as [p|]; [|done].
  destruct (EditBone.use_connect ebone); [|done].
  unfold EditBones.update. apply shape_fmap. intros b. by case_decide.
Qed.

Lemma shape_write_bone f bones i :
  shape <$> write_bone f bones i = shape <$> bones.
Proof.
  unfold write_bone, EditBones.write_head, EditBones.write_tail.
  destruct (bones !! i) as [bone|]; [|done].
  assert (shape <$> EditBones.transform_update i
            (alter (EditBone.set_head (f (EditBone.head bone))) i bones)
          = shape <$> bones) as Hh.
  { by rewrite shape_transform_update, shape_alter. }
  destruct (_ !! i) as [bone'|]; [|done].
  by rewrite shape_transform_update, shape_alter.
Qed.

Lemma shape_foldl_write_bone f (idx : list nat) bones :
  shape <$> foldl (write_bone f) bones idx = shape <$> bones.
Proof.
  revert bones. induction idx as [|i idx IH]; intros bones; simpl; [done|].
  by rewrite IH, shape_write_bone.
Qed.

Lemma shape_write_bones f bones :
  shape <$> write_bones f bones = shape <$> bones.
Proof. apply shape_foldl_write_bone. Qed.

Lemma shape_names bones bones' :
  shape <$> bones' = shape <$> bones →
  EditBones.names bones' = EditBones.names bones.
Proof.
  intros H. unfold EditBones.names.
  change EditBone.name with ((λ s : string * option string * bool, s.1.1) ∘ shape).
  by rewrite !list_fmap_compose, H.
Qed.

Lemma names_write_bones f bones :
  EditBones.names (write_bones f bones) = EditBones.names bones.
Proof. apply shape_names, shape_write_bones. Qed.

(** [get] returns the bone at one position, the same for every list with
    the same names. *)
Lemma get_lookup n bones b :
  EditBones.get n bones = Some b →
  ∃ k, bones !! k = Some b ∧
       ∀ bones', EditBones.names bones' = EditBones.names bones →
                 EditBones.get n bones' = bones' !! k.
Proof.
  unfold EditBones.get, EditBones.names.
  induction bones as [|a bones IH]; simpl; [done|].
  case_bool_decide as Ha.
  - intros [= ->]. exists 0%nat. split; [done|].
    intros [|a' bones'] Hn; [done|]. simpl in *.
    injection Hn as Hn _. by rewrite bool_decide_eq_true_2 by congruence.
  - intros Hg. destruct (IH Hg) as (k & Hk & Hsame).
    exists (S k). split; [done|].
    intros [|a' bones'] Hn; [done|]. simpl in *.
    injection Hn as Hn Hn'. rewrite bool_decide_eq_false_2 by congruence.
    by apply Hsame.
Qed.

(** *** The head of a bone without a parent changes by its own writes
    only *)

Lemma transform_update_root i k bones b :
  bones !! k = Some b → EditBone.parent b = None →
  ∃ b', EditBones.transform_update i bones !! k = Some b' ∧
        shape b' = shape b ∧ EditBone.head b' = EditBone.head b.
Proof.
  intros Hk Hp. unfold EditBones.transform_update.
  destruct (bones !! i) as [ebone|]; [|by exists b].
  rewrite list_lookup_fmap.
  assert (∃ b1, (match EditBone.parent ebone with
                 | Some p =>
                     if EditBone.use_connect ebone
                     then EditBones.update p
                            (EditBone.set_tail (EditBone.head ebone)) bones
                     else bones
                 | None => bones
                 end) !! k = Some b1
                ∧ shape b1 = shape b ∧ EditBone.head b1 = EditBone.head b)
    as (b1 & -> & Hs & Hh).
  { destruct (EditBone.parent ebone) as [p|]; [|by exists b].
    destruct (EditBone.use_connect ebone); [|by exists b].
    unfold EditBones.update. rewrite list_lookup_fmap, Hk. simpl.
    eexists. split; [done|]. by case_decide. }
  simpl. eexists. split; [done|].
  rewrite decide_False; [done|].
  intros [Hpar _]. injection Hs as _ Hpar' _. congruence.
Qed.

Lemma write_bone_root f i k bones b :
  bones !! k = Some b → EditBone.parent b = None →
  ∃ b', write_bone f bones i !! k = Some b' ∧ shape b' = shape b ∧
        EditBone.head b'
        = if decide (i = k) then f (EditBone.head b) else EditBone.head b.
Proof.
  intros Hk Hp. unfold write_bone, EditBones.write_head, EditBones.write_tail.
  destruct (bones !! i) as [bone|] eqn:Hi.
  - assert (∃ b1, alter (EditBone.set_head (f (EditBone.head bone))) i bones !! k
                  = Some b1 ∧ shape b1 = shape b ∧
                  EditBone.head b1
                  = if decide (i = k) then f (EditBone.head b) else EditBone.head b)
      as (b1 & Hk1 & Hs1 & Hh1).
    { rewrite list_lookup_alter. case_decide as Hik.
      - subst k. rewrite Hk. simpl. eexists. split; [done|]. split; [done|].
        simpl. congruence.
      - by exists b. }
    assert (EditBone.parent b1 = None) as Hp1.
    { injection Hs1 as _ Hpar _. congruence. }
    destruct (transform_update_root i k _ b1 Hk1 Hp1) as (b2 & Hk2 & Hs2 & Hh2).
    assert (EditBone.parent b2 = None) as Hp2.
    { injection Hs2 as _ Hpar _. congruence. }
    destruct (EditBones.transform_update i
                (alter (EditBone.set_head (f (EditBone.head bone))) i bones) !! i)
      as [bone'|] eqn:Hi'.
    + assert (∃ b3, alter (EditBone.set_tail (f (EditBone.tail bone'))) i
                      (EditBones.transform_update i
                         (alter (EditBone.set_head (f (EditBone.head bone))) i bones))
                      !! k = Some b3 ∧ shape b3 = shape b2 ∧
                    EditBone.head b3 = EditBone.head b2)
        as (b3 & Hk3 & Hs3 & Hh3).
      { rewrite list_lookup_alter. case_decide as Hik.
        - subst k. rewrite Hk2. simpl. by eexists.
        - by exists b2. }
      assert (EditBone.parent b3 = None) as Hp3.
      { injection Hs3 as _ Hpar _. congruence. }
      destruct (transform_update_root i k _ b3 Hk3 Hp3) as (b4 & Hk4 & Hs4 & Hh4).
      exists b4. split; [done|]. split; congruence.
    + exists b2. split; [done|]. split; congruence.
  - exists b. split; [done|]. split; [done|].
    rewrite decide_False; [done|]. intros ->. congruence.
Qed.

Lemma foldl_write_bone_root f k (len start : nat) bones b :
  bones !! k = Some b → EditBone.parent b = None →
  ∃ b', foldl (write_bone f) bones (seq start len) !! k = Some b' ∧
        shape b' = shape b ∧
        EditBone.head b'
        = if decide (start ≤ k < start + len)%nat
          then f (EditBone.head b) else EditBone.head b.
Proof.
  revert start bones b. induction len as [|len IH]; intros start bones b Hk Hp; simpl.
  - exists b. split; [done|]. split; [done|]. case_decide; [lia|done].
  - destruct (write_bone_root f start k bones b Hk Hp) as (b1 & Hk1 & Hs1 & Hh1).
    assert (EditBone.parent b1 = None) as Hp1.
    { injection Hs1 as _ Hpar _. congruence. }
    destruct (IH (S start) _ b1 Hk1 Hp1) as (b2 & Hk2 & Hs2 & Hh2).
    exists b2. split; [done|]. split; [congruence|].
    rewrite Hh2, Hh1. repeat case_decide; try lia; done.
Qed.

Lemma write_bones_root f k bones b :
  bones !! k = Some b → EditBone.parent b = None →
  ∃ b', write_bones f bones !! k = Some b' ∧ shape b' = shape b ∧
        EditBone.head b' = f (EditBone.head b).
Proof.
  intros Hk Hp. unfold write_bones.
  destruct (foldl_write_bone_root f k (length bones) 0 bones b Hk Hp)
    as (b' & Hk' & Hs & Hh).
  exists b'. split; [done|]. split; [done|].
  apply lookup_lt_Some in Hk. rewrite decide_True in Hh by lia. done.
Qed.

(** Lines 94 to 106 when hand.L has no parent. *)
Lemma rebase_bones_root bones hand_l :
  EditBones.get "hand.L" bones = Some hand_l → EditBone.parent hand_l = None →
  let offset := mirror_x (EditBone.head hand_l) in
  let bones' := write_bones (λ v, sub v offset) (write_bones mirror_x bones) in
  rebase_bones bones
  = ([HandAfterMirror offset; HandHeadAfterTranslate zero], inr (offset, bones'))
  ∧ ∃ hand_l', EditBones.get "hand.L" bones' = Some hand_l' ∧
               EditBone.head hand_l' = zero ∧ EditBone.parent hand_l' = None.
Proof.
  intros Hg Hp offset bones'.
  destruct (get_lookup _ _ _ Hg) as (k & Hk & Hsame).
  destruct (write_bones_root mirror_x k bones hand_l Hk Hp) as (h1 & Hk1 & Hs1 & Hh1).
  assert (EditBone.parent h1 = None) as Hp1.
  { injection Hs1 as _ Hpar _. congruence. }
  destruct (write_bones_root (λ v, sub v offset) k _ h1 Hk1 Hp1)
    as (h2 & Hk2 & Hs2 & Hh2).
  assert (EditBone.parent h2 = None) as Hp2.
  { injection Hs2 as _ Hpar _. congruence. }
  assert (EditBones.get "hand.L" (write_bones mirror_x bones) = Some h1) as Hg1.
  { rewrite Hsame by apply names_write_bones. done. }
  assert (EditBones.get "hand.L" bones' = Some h2) as Hg2.
  { unfold bones'. rewrite Hsame by (by rewrite !names_write_bones). done. }
  assert (EditBone.head h2 = zero) as Hz.
  { rewrite Hh2, Hh1. apply sub_self. }
  split; [|by exists h2].
  unfold rebase_bones. rewrite Hg1. cbn. rewrite Hh1. fold offset.
  fold bones'. rewrite Hg2. cbn. by rewrite Hz.
Qed.

(** *** Rigs without connected bones *)

Lemma transform_update_unconnected i bones :
  unconnected bones → EditBones.transform_update i bones = bones.
Proof.
  intros Hu. unfold EditBones.transform_update.
  destruct (bones !! i) as [ebone|] eqn:Hi; [|done].
  assert (EditBone.use_connect ebone = false) as ->.
  { eapply (proj1 (Forall_lookup _ _) Hu); eauto. }
  assert ((match EditBone.parent ebone with
           | Some _ => bones
           | None => bones
           end) = bones) as -> by by destruct (EditBone.parent ebone).
  rewrite <- (list_fmap_id bones) at 2.
  apply list_fmap_ext. intros j b Hj. simpl.
  rewrite decide_False; [done|]. intros [_ Hc].
  rewrite (proj1 (Forall_lookup _ _) Hu j b Hj) in Hc. done.
Qed.

Lemma unconnected_alter (g : EditBone.t → EditBone.t) i bones :
  (∀ b, EditBone.use_connect (g b) = EditBone.use_connect b) →
  unconnected bones → unconnected (alter g i bones).
Proof.
  intros Hg Hu. apply Forall_lookup. intros j b.
  rewrite list_lookup_alter. case_decide as Hj.
  - subst j. destruct (bones !! i) as [b0|] eqn:Hb0; [|done]. simpl. intros [= <-].
    rewrite Hg. eapply (proj1 (Forall_lookup _ _) Hu); eauto.
  - apply (proj1 (Forall_lookup _ _) Hu).
Qed.

Lemma write_bone_unconnected f bones i :
  unconnected bones → write_bone f bones i = alter (moved_bone f) i bones.
Proof.
  intros Hu. unfold write_bone, EditBones.write_head, EditBones.write_tail.
  destruct (bones !! i) as [bone|] eqn:Hi.
  - rewrite transform_update_unconnected by (by apply unconnected_alter).
    rewrite list_lookup_alter, decide_True, Hi by done. simpl.
    rewrite transform_update_unconnected
      by (apply unconnected_alter; [done|]; by apply unconnected_alter).
    rewrite list_alter_alter_eq. apply list_alter_ext; [|done].
    intros b Hb. assert (b = bone) as -> by congruence. done.
  - symmetry. apply list_eq. intros j. rewrite list_lookup_alter.
    case_decide as Hj; [|done]. subst j. by rewrite Hi.
Qed.

Lemma foldl_write_bone_unconnected f (idx : list nat) bones :
  unconnected bones →
  foldl (write_bone f) bones idx
  = foldl (λ bs i, alter (moved_bone f) i bs) bones idx.
Proof.
  revert bones. induction idx as [|i idx IH]; intros bones Hu; simpl; [done|].
  rewrite write_bone_unconnected by done.
  apply IH. by apply unconnected_alter.
Qed.

Lemma write_bones_unconnected f bones :
  unconnected bones → write_bones f bones = moved_bone f <$> bones.
Proof.
  intros Hu. unfold write_bones.
  rewrite foldl_write_bone_unconnected by done. apply foldl_alter_all.
Qed.

Lemma unconnected_fmap (g : EditBone.t → EditBone.t) bones :
  (∀ b, EditBone.use_connect (g b) = EditBone.use_connect b) →
  unconnected bones → unconnected (g <$> bones).
Proof.
  intros Hg Hu. apply Forall_fmap. eapply Forall_impl; [exact Hu|].
  intros b Hb. simpl. by rewrite Hg.
Qed.

(** Without connected bones, every head and tail is mirrored and then
    moved by the offset. *)
Lemma rebase_bones_unconnected bones offset :
  unconnected bones →
  write_bones (λ v, sub v offset) (write_bones mirror_x bones)
  = rebased_bone offset <$> bones.
Proof.
  intros Hu. rewrite (write_bones_unconnected mirror_x) by done.
  rewrite write_bones_unconnected by (by apply unconnected_fmap).
  rewrite <- list_fmap_compose. apply list_fmap_ext. by intros i [] _.
Qed.

(** *** The step as a whole *)

Lemma rebase_inr host arm mesh1 out arm' mesh1' :
  rebase host arm mesh1 = (out, inr (arm', mesh1')) →
  ∃ hand_l hand_l',
    let bones1 := write_bones mirror_x (edit_bones arm) in
    let offset := EditBone.head hand_l in
    let bones2 := write_bones (λ v, sub v offset) bones1 in
    EditBones.get "hand.L" bones1 = Some hand_l ∧
    EditBones.get "hand.L" bones2 = Some hand_l' ∧
    fails host ModeSetObject = None ∧
    out = [HandAfterMirror offset; HandHeadAfterTranslate (EditBone.head hand_l')] ∧
    arm' = MkArmature bones2 (Vec 0 0 0) (Vec 0 0 0) (Vec 1 1 1) ∧
    mesh1' = MkMesh (matrix_world mesh1) (vertex_groups mesh1)
               (rebased_vertex offset <$> vertices mesh1).
Proof.
  unfold rebase, rebase_bones, host_call.
  destruct (EditBones.get "hand.L" (write_bones mirror_x (edit_bones arm)))
    as [hand_l|] eqn:Hg1; [|by cbn].
  cbn.
  destruct (EditBones.get "hand.L"
              (write_bones (λ v, sub v (EditBone.head hand_l))
                 (write_bones mirror_x (edit_bones arm))))
    as [hand_l'|] eqn:Hg2; [|by cbn].
  cbn. destruct (fails host ModeSetObject) as [e|] eqn:Hf; [by cbn|]. cbn.
  intros [= <- <- <-]. exists hand_l, hand_l'. cbn.
  rewrite Hg2. repeat split; try done.
  unfold transform. f_equal. apply list_fmap_ext. intros i v _.
  unfold rebased_vertex. by rewrite mul_Translation_neg.
Qed.

Lemma rebase_run host arm mesh1 hand_l :
  EditBones.get "hand.L" (edit_bones arm) = Some hand_l →
  EditBone.parent hand_l = None →
  fails host ModeSetObject = None →
  let offset := mirror_x (EditBone.head hand_l) in
  rebase host arm mesh1
  = ([HandAfterMirror offset; HandHeadAfterTranslate zero],
     inr (MkArmature
            (write_bones (λ v, sub v offset)
               (write_bones mirror_x (edit_bones arm)))
            (Vec 0 0 0) (Vec 0 0 0) (Vec 1 1 1),
          MkMesh (matrix_world mesh1) (vertex_groups mesh1)
            (rebased_vertex offset <$> vertices mesh1))).
Proof.
  intros Hg Hp Hf offset. unfold rebase.
  destruct (rebase_bones_root _ _ Hg Hp) as [-> _].
  unfold host_call. rewrite Hf. cbn. fold offset. do 3 f_equal.
  unfold transform. f_equal. apply list_fmap_ext. intros i v _.
  unfold rebased_vertex. by rewrite mul_Translation_neg.
Qed.

Example main_arm_scene :
  main willing_host 10 arm_scene = (arm_scene_out, inr arm_scene_result).
Proof. by_compute. Qed.

End rebasing.

(** ** The cleanup of vertex groups *)

Section cleanup.

Import ExportHand.
Local Open Scope Qc_scope.

Lemma mesh_wf_spec m :
  mesh_wf m ↔ ∀ v g, v ∈ vertices m → g ∈ MeshVertex.groups v →
                     VertexGroupElement.group g ∈ vertex_groups m.
Proof.
  unfold mesh_wf. rewrite Forall_forall. split.
  - intros H v g Hv Hg. specialize (H v Hv). rewrite Forall_forall in H. auto.
  - intros H v Hv. rewrite Forall_forall. intros g Hg. eauto.
Qed.

Lemma elem_of_replace g vg w gs :
  g ∈ VertexGroup.replace vg w gs → g = VertexGroupElement.Build vg w ∨ g ∈ gs.
Proof.
  induction gs as [|a gs IH]; simpl.
  - intros H. apply elem_of_cons in H as [->|H]; [by left|by right].
  - case_decide as Hd.
    + intros H. apply elem_of_cons in H as [->|H]; [by left|].
      right. by apply list_elem_of_further.
    + intros H. apply elem_of_cons in H as [->|H]; [right; apply list_elem_of_here|].
      destruct (IH H) as [?|?]; [by left|right; by apply list_elem_of_further].
Qed.

Lemma merge_groups_returns f h m :
  merge_groups f h m = ([], inr m) ∨
  (f ∈ vertex_groups m ∧ h ∈ vertex_groups m ∧
   merge_groups f h m = ([Transferred], inr (transfer f h m))).
Proof.
  unfold merge_groups, VertexGroup.get.
  destruct (decide (f ∈ vertex_groups m)); [|by left].
  destruct (decide (h ∈ vertex_groups m)); [|by left].
  right. done.
Qed.

Lemma vertex_groups_remove_all (l : list string) m :
  vertex_groups (foldl (λ m vg, VertexGroup.remove vg m) m l)
  = filter (λ n, n ∉ l) (vertex_groups m).
Proof.
  revert m. induction l as [|vg l IH]; intros m; simpl.
  - symmetry. apply filter_all. intros n _. apply not_elem_of_nil.
  - rewrite IH. simpl. rewrite list_filter_filter.
    apply filter_ext_elem. intros n _. rewrite not_elem_of_cons. tauto.
Qed.

(** With one entry per group, removing the groups of [l] one after the
    other leaves the entries of the other groups. *)
Lemma drop_all_filter (l : list string) gs :
  NoDup (VertexGroupElement.group <$> gs) →
  drop_all l gs ≡ₚ filter (λ g, VertexGroupElement.group g ∉ l) gs.
Proof.
  revert gs. induction l as [|vg l IH]; intros gs Hnd; simpl.
  - symmetry. rewrite filter_all; [done|]. intros g _. apply not_elem_of_nil.
  - rewrite IH by (by apply drop_entry_unique).
    rewrite drop_entry_filter by done. rewrite list_filter_filter.
    erewrite filter_ext_elem; [done|].
    intros g _. rewrite not_elem_of_cons. tauto.
Qed.

Example main_spine_scene :
  main willing_host 10 spine_scene
  = (fst (main willing_host 10 spine_scene),
     inr (MkData (Some spine_result_armature) (Some spine_result_mesh) None [])).
Proof. by_compute. Qed.

(** C5, at the failing input.  In the scene of a hand hanging from a
    spine the run reaches the exporter; the spine bone has been deleted,
    yet the mesh still has the vertex group "spine" and its vertex still
    has its weight in it: "spine" has no ".R" in it and is not on the
    list of line 59. *)
Theorem cleanup_leaves_removed_bone :
  ∃ out arm' mesh1',
    main willing_host 10 spine_scene
    = (out, inr (MkData (Some arm') (Some mesh1') None [])) ∧
    "spine" ∈ EditBones.names (edit_bones spine_armature) ∧
    ("spine" ∉ EditBones.names (edit_bones arm')) ∧
    "spine" ∈ vertex_groups mesh1' ∧
    MeshVertex.groups <$> vertices mesh1'
    = [[VertexGroupElement.Build "spine" (Q2Qc (1 # 2));
        VertexGroupElement.Build "hand.L" (Q2Qc (1 # 2))]].
Proof.
  eexists _, _, _. split; [exact main_spine_scene|].
  split; [|split; [|split]]; by_compute.
Qed.

Example main_upper_arm_scene :
  main willing_host 10 upper_arm_scene
  = (fst (main willing_host 10 upper_arm_scene),
     inr (MkData (Some spine_result_armature) (Some upper_arm_result_mesh) None [])).
Proof. by_compute. Qed.

(** C3 as stated fails: the vertex has 1/2 on upper_arm.L, 1/4 on
    forearm.L and 1/8 on hand.L; both bones are removed, and hand.L ends
    with 1/8 + 1/4, not with 1/8 + 1/2 + 1/4: the weight on upper_arm.L
    is dropped with its group. *)
Lemma removal_set_not_merged : ¬ merges_removal_set.
Proof.
  intros H.
  specialize (H willing_host 10%nat upper_arm_scene upper_arm_armature upper_arm_mesh
                _ _ _ 0%nat upper_arm_vertex
                (MeshVertex.Build (vec3 4 0 0)
                   [VertexGroupElement.Build "hand.L" (Q2Qc (3 # 8))])
                eq_refl eq_refl main_upper_arm_scene eq_refl eq_refl).
  assert (entries_unique upper_arm_vertex) as Hu by by_compute.
  assert (weights_valid upper_arm_vertex) as Hv.
  { intros g Hg. unfold upper_arm_vertex in Hg. simpl in Hg.
    repeat (apply elem_of_cons in Hg as [->|Hg]; [by vm_compute|]).
    by apply elem_of_nil in Hg. }
  specialize (H Hu Hv). clear Hu Hv.
  revert H. by_compute.
Qed.

End cleanup.

(** ** The order of the sections *)

Section order.

Import ExportHand.

(** C4 as stated fails: on the example scene the weights are transferred
    and the groups cleaned up before the bones are pruned. *)
Lemma claimed_order_not_followed : ¬ runs_in_claimed_order.
Proof.
  intros H. specialize (H willing_host 10 arm_scene _ _ main_arm_scene).
  vm_compute in H. discriminate H.
Qed.

Lemma bind_inr {A B} (m : M A) (k : A → M B) out b :
  bind m k = (out, inr b) →
  ∃ o1 a o2, m = (o1, inr a) ∧ k a = (o2, inr b) ∧ out = o1 ++ o2.
Proof.
  destruct m as [o1 [e|a]]; simpl; [discriminate|].
  destruct (k a) as [o2 r] eqn:Hk. intros [= <- ->]. by exists o1, a, o2.
Qed.

Lemma attr_inr {A} (o : option A) out a :
  attr o = (out, inr a) → o = Some a ∧ out = [].
Proof. destruct o; simpl; [|discriminate]. by intros [= <- <-]. Qed.

Lemma item_inr {A} (l : list A) i out a :
  item l i = (out, inr a) → l !! i = Some a ∧ out = [].
Proof. unfold item. destruct (l !! i); simpl; [|discriminate]. by intros [= <- <-]. Qed.

Lemma print_inr ev out u : print ev = (out, inr u) → out = [ev].
Proof. by intros [= <-]. Qed.

Lemma host_call_inr host c out u :
  host_call host c = (out, inr u) → fails host c = None ∧ out = [].
Proof.
  unfold host_call. destruct (fails host c); simpl; [discriminate|].
  by intros [= <-].
Qed.

Tactic Notation "inv_bind" hyp(H) "as" ident(o) ident(a) ident(Hm) :=
  apply bind_inr in H as (o & a & ? & Hm & H & ->).

Lemma link_texture_inr host exists_ load out u :
  link_texture host exists_ load = (out, inr u) →
  out = [] ∧ (exists_ = true → fails host load = None ∧ principled_bsdf host = true).
Proof.
  unfold link_texture. destruct exists_.
  - intros H. inv_bind H as oL u0 HL. apply host_call_inr in HL as [Hf ->].
    destruct (principled_bsdf host); [|discriminate H].
    injection H as <-. done.
  - intros [= <-]. done.
Qed.

Lemma attach_materials_inr host out u :
  attach_materials host = (out, inr u) →
  out = [] ∧
  (color_exists host = true → fails host LoadColor = None ∧ principled_bsdf host = true) ∧
  (normal_exists host = true → fails host LoadNormal = None ∧ principled_bsdf host = true).
Proof.
  unfold attach_materials. intros H. inv_bind H as oC u0 HC.
  apply link_texture_inr in HC as [-> HC].
  apply link_texture_inr in H as [-> HN]. done.
Qed.

Lemma stages_transfer_weights m out m' :
  transfer_weights m = (out, inr m') →
  stages out
  = if decide ("forearm.L" ∈ vertex_groups m ∧ "hand.L" ∈ vertex_groups m)
    then [WeightReassigner] else [].
Proof.
  unfold transfer_weights, merge_groups, VertexGroup.get.
  destruct (decide ("forearm.L" ∈ vertex_groups m)) as [Hf|Hf];
    [destruct (decide ("hand.L" ∈ vertex_groups m)) as [Hh|Hh]|];
    simpl; intros [= <- _].
  - by rewrite decide_True.
  - rewrite decide_False; [done|tauto].
  - rewrite decide_False; [done|tauto].
Qed.

Lemma stages_remove_unused m out m' :
  remove_unused m = (out, inr m') → stages out = [CleanupGroups].
Proof. unfold remove_unused. simpl. by intros [= <- _]. Qed.

Lemma stages_keep_hand_subtree limit bones out bones' :
  keep_hand_subtree limit bones = (out, inr bones') → stages out = [SubtreeExtractor].
Proof.
  unfold keep_hand_subtree. intros H.
  inv_bind H as oG hand_l HG. inv_bind H as oC keep HC.
  inv_bind H as oK u HK. inv_bind H as oA hand_l' HA.
  apply print_inr in HK as ->. apply attr_inr in HA as [_ ->].
  injection H as <- _.
  unfold lift in HC. injection HC as <- _.
  destruct (EditBones.get "hand.L" bones); simpl in HG; [|discriminate HG].
  injection HG as <- _. done.
Qed.

Lemma stages_rebase host arm mesh1 out r :
  rebase host arm mesh1 = (out, inr r) → stages out = [Rebaser].
Proof.
  destruct r as [arm' mesh1']. intros H.
  apply rebase_inr in H as (hand_l & hand_l' & _ & _ & _ & -> & _). done.
Qed.

Lemma list_min_inr xs out a : list_min xs = (out, inr a) → out = [].
Proof. destruct xs; simpl; [discriminate|]. by intros [= <- _]. Qed.

Lemma list_max_inr xs out a : list_max xs = (out, inr a) → out = [].
Proof. destruct xs; simpl; [discriminate|]. by intros [= <- _]. Qed.

Lemma stages_print_bounds m out u :
  print_bounds m = (out, inr u) → stages out = [].
Proof.
  unfold print_bounds. intros H.
  inv_bind H as ox0 qx0 H0. inv_bind H as ox1 qx1 H1. inv_bind H as oy0 qy0 H2.
  inv_bind H as oy1 qy1 H3. inv_bind H as oz0 qz0 H4. inv_bind H as oz1 qz1 H5.
  apply list_min_inr in H0 as ->. apply list_max_inr in H1 as ->.
  apply list_min_inr in H2 as ->. apply list_max_inr in H3 as ->.
  apply list_min_inr in H4 as ->. apply list_max_inr in H5 as ->.
  apply print_inr in H as ->. done.
Qed.

(** C4, amended. A run that reaches the exporter goes through the
    sections in the script's order, whatever the host: discard of the
    duplicate mesh when there is one, transform apply, weight transfer
    when the mesh has both groups, cleanup of the groups, pruning of the
    bones, mirror and translation, export. *)
Theorem main_stage_order host limit data out d :
  main host limit data = (out, inr d) →
  ∃ mesh1,
    Cube_000 data = Some mesh1 ∧
    stages out
    = (if Cube_005 data is Some _ then [DiscardDuplicate] else [])
      ++ [ApplyTransform]
      ++ (if decide ("forearm.L" ∈ vertex_groups mesh1
                     ∧ "hand.L" ∈ vertex_groups mesh1)
          then [WeightReassigner] else [])
      ++ [CleanupGroups; SubtreeExtractor; Rebaser; HandOff].
Proof.
  unfold main. intros H.
  inv_bind H as oA arm HA. inv_bind H as oD u0 HD.
  inv_bind H as oh1 uh1 Hh1. inv_bind H as oM mesh1 HM.
  inv_bind H as oh2 uh2 Hh2.
  inv_bind H as oT u1 HT. inv_bind H as oB hand_bone HB. inv_bind H as oL u2 HL.
  inv_bind H as oV v_sample HV. inv_bind H as oS u3 HS. inv_bind H as oW mesh2 HW.
  inv_bind H as oC mesh3 HC.
  inv_bind H as oh3 uh3 Hh3. inv_bind H as oh4 uh4 Hh4.
  inv_bind H as oK bones HK. inv_bind H as oR r HR.
  inv_bind H as oP u4 HP.
  inv_bind H as oX u6 HX. inv_bind H as oh5 uh5 Hh5. inv_bind H as oh6 uh6 Hh6.
  inv_bind H as oE u5 HE.
  apply host_call_inr in Hh1 as [_ ->]. apply host_call_inr in Hh2 as [_ ->].
  apply host_call_inr in Hh3 as [_ ->]. apply host_call_inr in Hh4 as [_ ->].
  apply host_call_inr in Hh5 as [_ ->]. apply host_call_inr in Hh6 as [_ ->].
  apply attach_materials_inr in HX as [-> _].
  apply attr_inr in HM as [Hmesh ->]. exists mesh1. split; [done|].
  apply print_inr in HT as ->. apply attr_inr in HB as [_ ->].
  apply print_inr in HL as ->. apply item_inr in HV as [_ ->].
  apply print_inr in HS as ->.
  apply stages_transfer_weights in HW. simpl in HW.
  apply stages_remove_unused in HC. apply stages_keep_hand_subtree in HK.
  apply stages_rebase in HR. apply stages_print_bounds in HP.
  apply print_inr in HE as ->. injection H as <- _.
  assert (stages oA = []
          ∧ stages oD = if Cube_005 data is Some _ then [DiscardDuplicate] else [])
    as [HoA HoD].
  { destruct (Armature data); [|discriminate HA]. injection HA as <- _.
    split; [done|]. destruct (Cube_005 data); by injection HD as <- _. }
  unfold stages in *. rewrite !omap_app.
  rewrite HoA, HoD, HW, HC, HK, HR, HP. simpl. done.
Qed.

Lemma main_stage_order_witness :
  ∃ mesh1,
    Cube_000 arm_scene = Some mesh1 ∧
    stages arm_scene_out
    = (if Cube_005 arm_scene is Some _ then [DiscardDuplicate] else [])
      ++ [ApplyTransform]
      ++ (if decide ("forearm.L" ∈ vertex_groups mesh1
                     ∧ "hand.L" ∈ vertex_groups mesh1)
          then [WeightReassigner] else [])
      ++ [CleanupGroups; SubtreeExtractor; Rebaser; HandOff].
Proof.
  apply (main_stage_order willing_host 10 arm_scene arm_scene_out arm_scene_result).
  by_compute.
Defined.

End order.

(** ** More on the sections of the script *)

Section bounds.

Import ExportHand.

Local Open Scope Qc_scope.

Lemma foldl_min_spec xs a :
  let r := foldl (λ acc b, min acc b) a xs in
  r ∈ a :: xs ∧ ∀ x, x ∈ a :: xs → r ≤ x.
Proof.
  revert a. induction xs as [|b xs IH]; intros a; simpl.
  - split; [apply list_elem_of_here|].
    intros x Hx. apply elem_of_cons in Hx as [->|Hx]; [apply Qcle_refl|].
    by apply elem_of_nil in Hx.
  - destruct (IH (min a b)) as [Hin Hle]. split.
    + apply elem_of_cons in Hin as [Hin|Hin].
      * rewrite Hin. unfold min. case_decide.
        -- apply list_elem_of_further, list_elem_of_here.
        -- apply list_elem_of_here.
      * by do 2 apply list_elem_of_further.
    + intros x Hx.
      assert (min a b ≤ a ∧ min a b ≤ b) as [Ha Hb].
      { unfold min. case_decide as Hlt.
        - split; [by apply Qclt_le_weak|apply Qcle_refl].
        - split; [apply Qcle_refl|by apply Qcnot_lt_le]. }
      pose proof (Hle (min a b) (list_elem_of_here _ _)) as Hr.
      apply elem_of_cons in Hx as [->|Hx]; [by eapply Qcle_trans|].
      apply elem_of_cons in Hx as [->|Hx]; [by eapply Qcle_trans|].
      apply Hle. by apply list_elem_of_further.
Qed.

Lemma foldl_max_spec xs a :
  let r := foldl (λ acc b, max acc b) a xs in
  r ∈ a :: xs ∧ ∀ x, x ∈ a :: xs → x ≤ r.
Proof.
  revert a. induction xs as [|b xs IH]; intros a; simpl.
  - split; [apply list_elem_of_here|].
    intros x Hx. apply elem_of_cons in Hx as [->|Hx]; [apply Qcle_refl|].
    by apply elem_of_nil in Hx.
  - destruct (IH (max a b)) as [Hin Hle]. split.
    + apply elem_of_cons in Hin as [Hin|Hin].
      * rewrite Hin. unfold max. case_decide.
        -- apply list_elem_of_further, list_elem_of_here.
        -- apply list_elem_of_here.
      * by do 2 apply list_elem_of_further.
    + intros x Hx.
      assert (a ≤ max a b ∧ b ≤ max a b) as [Ha Hb].
      { unfold max. case_decide as Hlt.
        - split; [by apply Qclt_le_weak|apply Qcle_refl].
        - split; [apply Qcle_refl|by apply Qcnot_lt_le]. }
      pose proof (Hle (max a b) (list_elem_of_here _ _)) as Hr.
      apply elem_of_cons in Hx as [->|Hx]; [by eapply Qcle_trans|].
      apply elem_of_cons in Hx as [->|Hx]; [by eapply Qcle_trans|].
      apply Hle. by apply list_elem_of_further.
Qed.

Lemma list_min_max_spec (xs : list Qc) :
  (xs = [] → list_min xs = ([], inl ValueError) ∧ list_max xs = ([], inl ValueError))
  ∧ (xs ≠ [] →
     ∃ lo hi,
       list_min xs = ([], inr lo) ∧ list_max xs = ([], inr hi) ∧
       lo ∈ xs ∧ hi ∈ xs ∧ ∀ x, x ∈ xs → lo ≤ x ∧ x ≤ hi).
Proof.
  split; [by intros ->|]. intros Hne.
  destruct xs as [|a xs]; [done|]. simpl.
  destruct (foldl_min_spec xs a) as [Hmin Hlo].
  destruct (foldl_max_spec xs a) as [Hmax Hhi].
  eexists _, _. split; [done|]. split; [done|]. split; [done|]. split; [done|].
  intros x Hx. split; [by apply Hlo|by apply Hhi].
Qed.

End bounds.

Section bounds_line.

Import ExportHand.

Local Open Scope Qc_scope.

(** The text [f'{q:.4f}'] denotes a value within half of 1/10000 of [q]. *)
Lemma format_4f_close (q : Qc) :
  format_4f q - Q2Qc (1 # 20000) ≤ q ∧ q ≤ format_4f q + Q2Qc (1 # 20000).
Proof.
  unfold format_4f.
  set (s := (this q * inject_Z 10000)%Q).
  set (n := Qfloor s).
  assert (inject_Z n <= s)%Q as Hlo by apply Qfloor_le.
  assert (s < inject_Z (n + 1))%Q as Hhi by apply Qlt_floor.
  rewrite inject_Z_plus in Hhi. change (inject_Z 1) with 1%Q in Hhi.
  assert (this q == s * (1 # 10000))%Q as Hq.
  { unfold s. change (inject_Z 10000) with (10000 # 1)%Q. ring. }
  unfold Qcle, Qcminus, Qcplus, Qcopp. cbn [this Q2Qc].
  rewrite !Qred_correct.
  assert (∀ z : Z, inject_Z z / inject_Z 10000 == inject_Z z * (1 # 10000))%Q
    as Hdiv by (intros z; reflexivity).
  destruct (s - inject_Z n ?= 1 # 2)%Q eqn:Hc.
  - apply Qeq_alt in Hc.
    destruct (Z.odd n); rewrite Hdiv, ?inject_Z_plus, Hq;
      change (inject_Z 1) with 1%Q; split; lra.
  - apply Qlt_alt in Hc. rewrite Hdiv, Hq. split; lra.
  - apply Qgt_alt in Hc. rewrite Hdiv, inject_Z_plus, Hq.
    change (inject_Z 1) with 1%Q. split; lra.
Qed.

(** X6. The bounds line: on a mesh without vertices [min] raises
    [ValueError] and nothing is printed; otherwise one line is printed
    with, for each axis, the least and the greatest coordinate among the
    vertices, each written with four decimals, which is within 0.00005 of
    the coordinate itself. *)
Theorem print_bounds_spec :
  (∀ q, format_4f q - Q2Qc (1 # 20000) ≤ q ∧ q ≤ format_4f q + Q2Qc (1 # 20000))
  ∧ ∀ m,
      match vertices m with
      | [] => print_bounds m = ([], inl ValueError)
      | _ :: _ =>
          ∃ x0 x1 y0 y1 z0 z1,
            print_bounds m
            = ([MeshBounds (format_4f x0) (format_4f x1) (format_4f y0)
                  (format_4f y1) (format_4f z0) (format_4f z1)], inr ()) ∧
            (∀ v, v ∈ vertices m →
                  (x0 ≤ x (MeshVertex.co v) ∧ x (MeshVertex.co v) ≤ x1) ∧
                  (y0 ≤ y (MeshVertex.co v) ∧ y (MeshVertex.co v) ≤ y1) ∧
                  (z0 ≤ z (MeshVertex.co v) ∧ z (MeshVertex.co v) ≤ z1)) ∧
            (∃ v, v ∈ vertices m ∧ x (MeshVertex.co v) = x0) ∧
            (∃ v, v ∈ vertices m ∧ x (MeshVertex.co v) = x1) ∧
            (∃ v, v ∈ vertices m ∧ y (MeshVertex.co v) = y0) ∧
            (∃ v, v ∈ vertices m ∧ y (MeshVertex.co v) = y1) ∧
            (∃ v, v ∈ vertices m ∧ z (MeshVertex.co v) = z0) ∧
            (∃ v, v ∈ vertices m ∧ z (MeshVertex.co v) = z1)
      end.
Proof.
  split; [apply format_4f_close|]. intros m.
  unfold print_bounds. destruct (vertices m) as [|v0 vs]; [done|].
  set (vl := v0 :: vs).
  assert (∀ (f : MeshVertex.t → Qc),
    ∃ lo hi, list_min (f <$> vl) = ([], inr lo) ∧ list_max (f <$> vl) = ([], inr hi) ∧
      (∀ v, v ∈ vl → lo ≤ f v ∧ f v ≤ hi) ∧
      (∃ v, v ∈ vl ∧ f v = lo) ∧ (∃ v, v ∈ vl ∧ f v = hi)) as Hax.
  { intros f. destruct (list_min_max_spec (f <$> vl)) as [_ H].
    destruct H as (lo & hi & Hlo & Hhi & Hinlo & Hinhi & Hb); [done|].
    exists lo, hi. split; [done|]. split; [done|]. split; [|split].
    - intros v Hv. apply Hb. apply list_elem_of_fmap. eauto.
    - apply list_elem_of_fmap in Hinlo as (v & -> & Hv). eauto.
    - apply list_elem_of_fmap in Hinhi as (v & -> & Hv). eauto. }
  destruct (Hax (λ v, x (MeshVertex.co v))) as (x0 & x1 & -> & -> & Hx & Hx0 & Hx1).
  destruct (Hax (λ v, y (MeshVertex.co v))) as (y0 & y1 & -> & -> & Hy & Hy0 & Hy1).
  destruct (Hax (λ v, z (MeshVertex.co v))) as (z0 & z1 & -> & -> & Hz & Hz0 & Hz1).
  exists x0, x1, y0, y1, z0, z1. split; [done|].
  split; [|done]. intros v Hv. split; [by apply Hx|]. split; [by apply Hy|by apply Hz].
Qed.

(** 0.03125 is printed as 0.0312 and 0.09375 as 0.0938: ties go to the
    even digit. *)
Example format_4f_ties :
  format_4f (Q2Qc (1 # 32)) = Q2Qc (312 # 10000)
  ∧ format_4f (Q2Qc (3 # 32)) = Q2Qc (938 # 10000).
Proof. split; by_compute. Qed.

End bounds_line.

Section cleanup_exact.

Import ExportHand.

Local Open Scope Qc_scope.

Lemma matrix_world_remove_all (l : list string) m :
  matrix_world (foldl (λ m vg, VertexGroup.remove vg m) m l) = matrix_world m.
Proof.
  revert m. induction l as [|vg l IH]; intros m; simpl; [done|]. by rewrite IH.
Qed.

Lemma removable_filter m :
  filter (λ n, n ∉ filter (λ vg, is_removable vg = true) (vertex_groups m))
         (vertex_groups m)
  = filter (λ n, is_removable n = false) (vertex_groups m).
Proof.
  apply filter_ext_elem. intros n Hn. rewrite list_elem_of_filter.
  destruct (is_removable n).
  - split; [intros H; by destruct H|done].
  - split; [done|by intros _ [? _]].
Qed.

Lemma remove_unused_clean m :
  (∀ n, n ∈ vertex_groups m → is_removable n = false) →
  remove_unused m = ([VertexGroups (vertex_groups m)], inr m).
Proof.
  intros Hno. unfold remove_unused.
  rewrite filter_none; [done|].
  intros n Hn Hr. rewrite (Hno n Hn) in Hr. discriminate Hr.
Qed.

(** X7. The cleanup keeps, in their order, exactly the groups that are
    not removable; it moves no vertex; in every vertex it leaves the
    entries of the groups that are not removable and no other, possibly
    in another order (the host fills the place of a removed entry with
    the last one); run again on its result it removes nothing. *)
Theorem remove_unused_exact m :
  mesh_wf m → Forall entries_unique (vertices m) →
  ∃ m',
    remove_unused m = ([VertexGroups (vertex_groups m')], inr m') ∧
    matrix_world m' = matrix_world m ∧
    vertex_groups m' = filter (λ n, is_removable n = false) (vertex_groups m) ∧
    MeshVertex.co <$> vertices m' = MeshVertex.co <$> vertices m ∧
    Forall2 (λ v' v,
               MeshVertex.groups v'
               ≡ₚ filter (λ g, is_removable (VertexGroupElement.group g) = false)
                         (MeshVertex.groups v))
            (vertices m') (vertices m) ∧
    remove_unused m' = ([VertexGroups (vertex_groups m')], inr m').
Proof.
  intros Hwf Hu. rewrite mesh_wf_spec in Hwf.
  eexists. split; [reflexivity|].
  split; [apply matrix_world_remove_all|].
  split; [by rewrite vertex_groups_remove_all, removable_filter|].
  split; [|split].
  - rewrite vertices_remove_all, <- list_fmap_compose. by apply list_fmap_ext.
  - rewrite vertices_remove_all. apply Forall2_fmap_l, Forall2_same_length_lookup.
    split; [done|]. intros i v' v Hv' Hv.
    assert (v' = v) as -> by congruence. simpl.
    rewrite drop_all_filter
      by (eapply (proj1 (Forall_lookup _ _) Hu); eauto).
    erewrite filter_ext_elem; [done|].
    intros g Hg. rewrite list_elem_of_filter.
    assert (VertexGroupElement.group g ∈ vertex_groups m) as Hin.
    { eapply Hwf; [|done]. by eapply list_elem_of_lookup_2. }
    destruct (is_removable (VertexGroupElement.group g)).
    + split; [intros H; by destruct H|done].
    + split; [done|by intros _ [? _]].
  - apply remove_unused_clean. intros n Hn.
    rewrite vertex_groups_remove_all, removable_filter in Hn.
    by apply list_elem_of_filter in Hn as [Hr _].
Qed.

Lemma remove_unused_exact_witness :
  ∃ m',
    remove_unused denylisted_mesh = ([VertexGroups (vertex_groups m')], inr m') ∧
    vertex_groups m'
    = filter (λ n, is_removable n = false) (vertex_groups denylisted_mesh) ∧
    Forall2 (λ v' v,
               MeshVertex.groups v'
               ≡ₚ filter (λ g, is_removable (VertexGroupElement.group g) = false)
                         (MeshVertex.groups v))
            (vertices m') (vertices denylisted_mesh).
Proof.
  destruct (remove_unused_exact denylisted_mesh)
    as (m' & Hrun & _ & Hvg & _ & Hgs & _).
  - by_compute.
  - by_compute.
  - by exists m'.
Defined.

(** The cleanup at [denylisted_mesh], evaluated: the entry of hand.L,
    the last one, has taken the place of the first entry removed. *)
Example remove_unused_denylisted_mesh :
  remove_unused denylisted_mesh
  = ([VertexGroups ["hand.L"]],
     inr (MkMesh Identity ["hand.L"]
            [MeshVertex.Build (vec3 1 1 0)
               [VertexGroupElement.Build "hand.L" (Q2Qc (1 # 2))]])).
Proof. by_compute. Qed.

End cleanup_exact.

Section removable_names.

Import ExportHand.

Lemma prefix_spec (p s : string) :
  String.prefix p s = true ↔ ∃ post, s = p +:+ post.
Proof.
  revert s. induction p as [|a p IH]; intros s.
  - split; [intros _; exists s; reflexivity|by destruct s].
  - destruct s as [|b s]; simpl.
    + split; [done|]. intros [post Hpost]. discriminate Hpost.
    + destruct (Ascii.ascii_dec a b) as [->|Hne].
      * rewrite IH. split; intros [post Hpost]; exists post.
        -- simpl. by rewrite Hpost.
        -- simpl in Hpost. by injection Hpost.
      * split; [done|]. intros [post Hpost]. simpl in Hpost.
        injection Hpost as Hab _. by destruct Hne.
Qed.

Lemma contains_spec (pat s : string) :
  contains pat s = true ↔ ∃ pre post, s = pre +:+ pat +:+ post.
Proof.
  induction s as [|c s IH].
  - change (contains pat "") with (String.prefix pat "" || false).
    rewrite orb_false_r, prefix_spec. split.
    + intros [post Hpost]. by exists "", post.
    + intros (pre & post & H). destruct pre as [|? ?]; [|discriminate H].
      by exists post.
  - change (contains pat (String c s))
      with (String.prefix pat (String c s) || contains pat s).
    rewrite orb_true_iff, prefix_spec, IH. split.
    + intros [[post Hpost]|(pre & post & ->)].
      * by exists "", post.
      * by exists (String c pre), post.
    + intros (pre & post & H). destruct pre as [|c' pre]; simpl in H.
      * left. by exists post.
      * right. exists pre, post. by injection H.
Qed.

(** X8. A group is removed by the cleanup exactly when ".R" occurs
    somewhere in its name or the name is one of the five left-arm names
    of the list; the four names of the list with ".R" add nothing. *)
Theorem is_removable_spec (n : string) :
  is_removable n = true
  ↔ (∃ pre post, n = pre +:+ ".R" +:+ post)
    ∨ n ∈ ["ribs.001"; "shoulder.L"; "upper_arm.L"; "forearm.L"; "forearm.L.003"].
Proof.
  unfold is_removable. rewrite orb_true_iff, contains_spec, bool_decide_eq_true.
  unfold denylist. split.
  - intros [H|H]; [by left|].
    repeat (apply elem_of_cons in H as [->|H]);
      try (right; by_compute); try by apply elem_of_nil in H.
    + left. by exists "shoulder", "".
    + left. by exists "upper_arm", "".
    + left. by exists "forearm", "".
    + left. by exists "forearm", ".003".
  - intros [H|H]; [by left|]. right.
    repeat (apply elem_of_cons in H as [->|H]); try by_compute.
    by apply elem_of_nil in H.
Qed.

End removable_names.

Section validity.

Import ExportHand.

Local Open Scope Qc_scope.

Lemma merged_valid f h v : weights_valid v → weights_valid (merged f h v).
Proof.
  intros Hv. unfold merged. case_decide as Hfw; [|done].
  intros g Hg. simpl in Hg. apply elem_of_replace in Hg as [->|Hg]; [|by apply Hv].
  simpl. split; [|apply min_le_1].
  destruct (group_weight_valid h v Hv) as [Hh0 _].
  assert (0 ≤ group_weight h (MeshVertex.groups v)
               + group_weight f (MeshVertex.groups v)) as Hsum.
  { apply Qclt_le_weak. by apply Qcplus_nonneg_pos. }
  unfold min. case_decide; [by vm_compute|done].
Qed.

(** X9. The transfer keeps every weight of every vertex in [[0,1]]. *)
Theorem transfer_weights_keeps_valid m out m' :
  Forall weights_valid (vertices m) →
  transfer_weights m = (out, inr m') →
  Forall weights_valid (vertices m').
Proof.
  intros Hv. unfold transfer_weights.
  destruct (merge_groups_returns "forearm.L" "hand.L" m) as [->|(_ & _ & ->)].
  - by intros [= _ <-].
  - intros [= _ <-]. rewrite transfer_eq. simpl.
    rewrite Forall_fmap. eapply Forall_impl; [exact Hv|].
    intros v Hvv. simpl. intros g Hg. unfold VertexGroup.drop in Hg. simpl in Hg.
    apply elem_of_drop_entry in Hg. by apply (merged_valid "forearm.L" "hand.L" v Hvv).
Qed.

Lemma transfer_weights_keeps_valid_witness :
  Forall weights_valid (vertices (transfer "forearm.L" "hand.L" example_mesh)).
Proof.
  apply (transfer_weights_keeps_valid example_mesh [Transferred]).
  - apply Forall_cons. split; [|by apply Forall_nil].
    intros g Hg. unfold example_vertex in Hg. simpl in Hg.
    apply elem_of_cons in Hg as [->|Hg]; [by vm_compute|].
    apply elem_of_cons in Hg as [->|Hg]; [by vm_compute|].
    by apply elem_of_nil in Hg.
  - reflexivity.
Defined.

End validity.

Section tree_facts.

Import ExportHand.

Implicit Types (bones : list EditBone.t) (b : EditBone.t) (n : string).

Lemma names_remove_eq n bones :
  EditBones.names (EditBones.remove n bones)
  = filter (λ n', n' ≠ n) (EditBones.names bones).
Proof.
  unfold EditBones.names, EditBones.remove. cbn zeta.
  generalize (EditBones.get n bones ≫= EditBone.parent). intros p.
  rewrite <- list_fmap_compose.
  induction bones as [|b bones IH]; [done|].
  rewrite fmap_cons, !filter_cons.
  destruct (decide (EditBone.name b ≠ n)) as [Hn|Hn].
  - rewrite fmap_cons, IH. f_equal. simpl. by case_decide.
  - apply IH.
Qed.

Lemma names_delete_bones_eq (l : list string) bones :
  EditBones.names (delete_bones l bones)
  = filter (λ n, n ∉ l) (EditBones.names bones).
Proof.
  unfold delete_bones.
  revert bones. induction l as [|d l IH]; intros bones; simpl.
  - symmetry. apply filter_all. intros x _. apply not_elem_of_nil.
  - rewrite IH. destruct (EditBones.get d bones) as [x|] eqn:Hg.
    + apply get_Some in Hg as [_ Hx]. rewrite Hx, names_remove_eq.
      rewrite list_filter_filter. apply list_filter_iff.
      intros n. rewrite not_elem_of_cons. tauto.
    + apply get_None in Hg. apply filter_ext_elem.
      intros n Hn. rewrite not_elem_of_cons. split; [|tauto].
      intros Hl. split; [|done]. by intros ->.
Qed.

Lemma names_pruned_eq keep bones :
  EditBones.names (pruned keep bones)
  = filter (λ n, n ∈ keep) (EditBones.names bones).
Proof.
  unfold pruned. rewrite names_update by done.
  rewrite names_delete_bones_eq. apply filter_ext_elem.
  intros n Hn. rewrite elem_of_to_delete. split.
  - intros Hd. destruct (decide (n ∈ keep)); [done|]. by destruct Hd.
  - intros Hk [_ Hno]. done.
Qed.

Lemma keep_hand_subtree_inr limit bones out bones' :
  keep_hand_subtree limit bones = (out, inr bones') →
  ∃ keep,
    "hand.L" ∈ EditBones.names bones ∧
    collect limit bones "hand.L" ∅ = inr keep ∧
    out = [Keeping (size keep)] ∧ bones' = pruned keep bones.
Proof.
  intros H.
  destruct (EditBones.get "hand.L" bones) as [h|] eqn:Hg.
  - assert ("hand.L" ∈ EditBones.names bones) as Hh.
    { apply get_Some in Hg as [Hin <-]. apply list_elem_of_fmap. eauto. }
    destruct (collect limit bones "hand.L" ∅) as [e|keep] eqn:Hc.
    + unfold keep_hand_subtree in H. rewrite Hg in H.
      destruct (get_Some _ _ _ Hg) as [_ Hname]. cbn in H. rewrite Hname in H.
      unfold lift in H. rewrite Hc in H. cbn in H. discriminate H.
    + rewrite (keep_hand_subtree_run _ _ keep Hh Hc) in H.
      injection H as <- <-. by exists keep.
  - unfold keep_hand_subtree in H. rewrite Hg in H. cbn in H. discriminate H.
Qed.

Lemma keep_in_names limit bones keep n :
  "hand.L" ∈ EditBones.names bones →
  collect limit bones "hand.L" ∅ = inr keep →
  n ∈ keep → n ∈ EditBones.names bones.
Proof.
  intros Hh Hc Hn. apply (collect_spec _ _ _ _ _ Hc) in Hn as [Hn|Hn].
  { by apply not_elem_of_empty in Hn. }
  apply rtc_inv in Hn as [->|(y & (b & Hb & <- & _) & _)]; [done|].
  apply list_elem_of_fmap. eauto.
Qed.

(** A bone kept below hand.L is in the pruned armature with its parent. *)
Lemma kept_bone limit bones keep b :
  NoDup (EditBones.names bones) →
  collect limit bones "hand.L" ∅ = inr keep →
  b ∈ bones → EditBone.name b ∈ keep → EditBone.name b ≠ "hand.L" →
  ∃ b' p, b' ∈ pruned keep bones ∧ EditBone.name b' = EditBone.name b ∧
          EditBone.parent b = Some p ∧ EditBone.parent b' = Some p ∧ p ∈ keep.
Proof.
  intros Hnd Hc Hb Hk Hne.
  pose proof (collect_spec _ _ _ _ _ Hc) as Hkeep.
  assert (∃ p, EditBone.parent b = Some p ∧ p ∈ keep) as (p & Hp & Hpk).
  { apply Hkeep in Hk as [Hk|Hk]; [by apply not_elem_of_empty in Hk|].
    apply rtc_inv in Hk as [Heq|(y & (b2 & Hb2 & Hn2 & Hp2) & Hrtc)]; [done|].
    assert (b2 = b) as -> by by apply (NoDup_names_inj bones).
    exists y. split; [done|]. apply Hkeep. by right. }
  assert (EditBone.name b ∈ EditBones.names (pruned keep bones)) as Hin.
  { apply names_pruned. split; [|done]. apply list_elem_of_fmap. eauto. }
  apply list_elem_of_fmap in Hin as (b' & Hn' & Hb').
  exists b', p. split; [done|]. split; [done|]. split; [done|]. split; [|done].
  unfold pruned, EditBones.update in Hb'.
  apply list_elem_of_fmap in Hb' as (b1 & -> & Hb1).
  apply elem_of_delete_bones in Hb1 as (b0 & Hb0 & Hdel & (Hn0 & _ & _) & Hpar).
  assert (EditBone.name b1 = EditBone.name b) as Hn1.
  { revert Hn'. case_decide; simpl; congruence. }
  rewrite decide_False by congruence.
  assert (b0 = b) as -> by (apply (NoDup_names_inj bones); congruence).
  destruct Hpar as [Hpar|(d & Hd & Hpd)]; [congruence|].
  apply elem_of_to_delete in Hd as [_ Hd]. congruence.
Qed.

(** X11. What section 4 leaves is one tree: the names are still unique,
    hand.L has no parent, and every other bone has its parent among the
    bones left and reaches hand.L by the parent links of the bones left. *)
Theorem pruned_single_tree limit bones out bones' :
  NoDup (EditBones.names bones) →
  keep_hand_subtree limit bones = (out, inr bones') →
  NoDup (EditBones.names bones') ∧
  (∃ hand_l, EditBones.get "hand.L" bones' = Some hand_l
             ∧ EditBone.parent hand_l = None) ∧
  ∀ b', b' ∈ bones' → EditBone.name b' ≠ "hand.L" →
        ∃ p, EditBone.parent b' = Some p ∧ p ∈ EditBones.names bones' ∧
             in_subtree bones' "hand.L" (EditBone.name b').
Proof.
  intros Hnd Hrun.
  apply keep_hand_subtree_inr in Hrun as (keep & Hh & Hc & -> & ->).
  pose proof (collect_spec _ _ _ _ _ Hc) as Hkeep.
  assert ("hand.L" ∈ keep) as Hhk by (apply Hkeep; right; apply rtc_refl).
  assert (NoDup (EditBones.names (pruned keep bones))) as Hnd'.
  { rewrite names_pruned_eq. by apply NoDup_filter. }
  split; [done|]. split.
  - assert ("hand.L" ∈ EditBones.names (pruned keep bones)) as Hin
      by by apply names_pruned.
    destruct (get_is_Some _ _ Hin) as [h Hg]. exists h. split; [done|].
    apply get_Some in Hg as [Hhin Hname].
    unfold pruned, EditBones.update in Hhin.
    apply list_elem_of_fmap in Hhin as (b1 & -> & _).
    revert Hname. by case_decide.
  - assert (∀ n, rtc (parent_link bones) n "hand.L" →
                 rtc (parent_link (pruned keep bones)) n "hand.L") as Hreach.
    { intros n Hn. remember "hand.L" as root eqn:Hroot.
      induction Hn as [n|n y z (b & Hb & Hnb & Hpb) Hrest IH]; [apply rtc_refl|].
      specialize (IH Hroot). subst z.
      destruct (decide (n = "hand.L")) as [->|Hne]; [apply rtc_refl|].
      destruct (kept_bone limit bones keep b Hnd Hc Hb) as (b' & p & Hb' & Hn' & Hp & Hp' & _).
      { rewrite Hnb. apply Hkeep. right. eapply rtc_l; [|exact Hrest]. by exists b. }
      { congruence. }
      eapply rtc_l; [|exact (IH Hh Hc Hkeep Hhk)]. exists b'. split; [done|]. split; congruence. }
    intros b' Hb' Hne.
    assert (EditBone.name b' ∈ EditBones.names bones ∧ EditBone.name b' ∈ keep)
      as [Hinb Hink].
    { apply names_pruned. apply list_elem_of_fmap. eauto. }
    apply list_elem_of_fmap in Hinb as (b & Hnb & Hb).
    destruct (kept_bone limit bones keep b Hnd Hc Hb) as (b2 & p & Hb2 & Hn2 & Hp & Hp2 & Hpk);
      [congruence|congruence|].
    assert (b2 = b') as ->.
    { apply (NoDup_names_inj (pruned keep bones)); congruence. }
    exists p. split; [done|]. split.
    + apply names_pruned. split; [|done]. by eapply keep_in_names.
    + apply Hreach. rewrite Hnb in Hink.
      apply Hkeep in Hink as [Hink|Hink]; [by apply not_elem_of_empty in Hink|].
      by rewrite Hnb.
Qed.

(** X12. The number printed in "Keeping N bones" is the number of
    bones left in the armature. *)
Theorem keeping_counts_bones limit bones out bones' :
  NoDup (EditBones.names bones) →
  keep_hand_subtree limit bones = (out, inr bones') →
  out = [Keeping (length bones')].
Proof.
  intros Hnd Hrun.
  apply keep_hand_subtree_inr in Hrun as (keep & Hh & Hc & -> & ->).
  do 2 f_equal.
  assert (keep = list_to_set (EditBones.names (pruned keep bones))) as Hset.
  { apply set_eq. intros n. rewrite elem_of_list_to_set, names_pruned.
    split; [|tauto]. intros Hn. split; [|done]. by eapply keep_in_names. }
  rewrite Hset at 1. rewrite size_list_to_set.
  - unfold EditBones.names. by rewrite length_fmap.
  - rewrite names_pruned_eq. by apply NoDup_filter.
Qed.

End tree_facts.

Section main_facts.

Import ExportHand.

Local Open Scope Qc_scope.

Lemma transfer_weights_eq m :
  transfer_weights m = (transferred_out m, inr (transferred m)).
Proof.
  unfold transfer_weights, merge_groups, VertexGroup.get, transferred, transferred_out.
  destruct (decide ("forearm.L" ∈ vertex_groups m)) as [Hf|Hf];
    [destruct (decide ("hand.L" ∈ vertex_groups m)) as [Hh|Hh]|]; simpl.
  - by rewrite !decide_True.
  - rewrite !decide_False; [done|tauto|tauto].
  - rewrite !decide_False; [done|tauto|tauto].
Qed.

Lemma remove_unused_eq m :
  remove_unused m
  = ([VertexGroups (vertex_groups (unused_removed m))], inr (unused_removed m)).
Proof. done. Qed.

Lemma get_filter_ne n d bones :
  n ≠ d →
  EditBones.get n (filter (λ b, EditBone.name b ≠ d) bones) = EditBones.get n bones.
Proof.
  intros Hne. unfold EditBones.get.
  induction bones as [|b bones IH]; [done|].
  rewrite filter_cons. simpl.
  destruct (decide (EditBone.name b ≠ d)) as [Hb|Hb]; simpl.
  - by rewrite IH.
  - apply dec_stable in Hb. rewrite IH.
    by rewrite bool_decide_eq_false_2 by congruence.
Qed.

Lemma get_delete_bones n (l : list string) bones h :
  n ∉ l → EditBones.get n bones = Some h →
  ∃ h', EditBones.get n (delete_bones l bones) = Some h' ∧ same_bone h' h.
Proof.
  unfold delete_bones.
  revert bones h. induction l as [|d l IH]; intros bones h Hn Hg; simpl.
  - by exists h.
  - apply not_elem_of_cons in Hn as [Hnd Hnl].
    destruct (EditBones.get d bones) as [x|] eqn:Hd; [|by apply IH].
    apply get_Some in Hd as [_ Hx]. rewrite Hx.
    destruct (IH (EditBones.remove d bones)
                (if decide (EditBone.parent h = Some d)
                 then EditBone.Build (EditBone.name h)
                        (EditBones.get d bones ≫= EditBone.parent) false
                        (EditBone.head h) (EditBone.tail h)
                 else h) Hnl) as (h' & Hg' & Hs).
    { unfold EditBones.remove. rewrite get_fmap.
      - rewrite get_filter_ne by done. by rewrite Hg.
      - intros b. by case_decide. }
    exists h'. split; [done|].
    destruct Hs as (H1 & H2 & H3). revert H1 H2 H3. by case_decide.
Qed.

Lemma get_pruned keep bones hand_bone :
  "hand.L" ∈ keep → EditBones.get "hand.L" bones = Some hand_bone →
  ∃ h', EditBones.get "hand.L" (pruned keep bones) = Some h'
        ∧ EditBone.head h' = EditBone.head hand_bone ∧ EditBone.parent h' = None.
Proof.
  intros Hk Hg.
  destruct (get_delete_bones "hand.L" (to_delete keep bones) bones hand_bone)
    as (h1 & Hg1 & Hn1 & Hh1 & _); [|done|].
  { rewrite elem_of_to_delete. by intros [_ ?]. }
  unfold pruned, EditBones.update. rewrite get_fmap, Hg1.
  - simpl. eexists. split; [done|].
    apply get_Some in Hg1 as [_ Hname]. by rewrite decide_True.
  - intros b. by case_decide.
Qed.

Lemma print_bounds_runs m :
  vertices m ≠ [] →
  ∃ x0 x1 y0 y1 z0 z1, print_bounds m = ([MeshBounds x0 x1 y0 y1 z0 z1], inr ()).
Proof.
  intros Hne. unfold print_bounds. destruct (vertices m) as [|v0 vs]; [done|].
  cbn. by eexists _, _, _, _, _, _.
Qed.

Lemma length_transferred m :
  length (vertices (transferred m)) = length (vertices m).
Proof.
  unfold transferred. case_decide; [|done].
  rewrite transfer_eq. simpl. by rewrite length_fmap.
Qed.

Lemma length_unused_removed m :
  length (vertices (unused_removed m)) = length (vertices m).
Proof. unfold unused_removed. by rewrite vertices_remove_all, length_fmap. Qed.

Lemma length_transform_apply m :
  length (vertices (transform_apply m)) = length (vertices m).
Proof. unfold transform_apply, transform. simpl. by rewrite length_fmap. Qed.

Tactic Notation "inv_bind" hyp(H) "as" ident(o) ident(a) ident(Hm) :=
  apply bind_inr in H as (o & a & ? & Hm & H & ->).

(** A run that reaches the exporter. *)
Lemma main_inr host limit data out d :
  main host limit data = (out, inr d) →
  ∃ arm mesh1 hand_bone keep v_sample x0 x1 y0 y1 z0 z1,
    Armature data = Some arm ∧ Cube_000 data = Some mesh1 ∧
    EditBones.get "hand.L" (edit_bones arm) = Some hand_bone ∧
    vertices (transform_apply mesh1) !! 0%nat = Some v_sample ∧
    collect limit (edit_bones arm) "hand.L" ∅ = inr keep ∧
    d = exported arm mesh1 keep hand_bone ∧
    out = dup_out data
          ++ [MeshTransformApplied Identity; HandHeadLocal (EditBone.head hand_bone);
              VertexAfterApply (MeshVertex.co v_sample)]
          ++ transferred_out (transform_apply mesh1)
          ++ [VertexGroups
                (vertex_groups (unused_removed (transferred (transform_apply mesh1))));
              Keeping (size keep);
              HandAfterMirror (mirror_x (EditBone.head hand_bone));
              HandHeadAfterTranslate zero;
              MeshBounds x0 x1 y0 y1 z0 z1; Exported].
Proof.
  unfold main. intros H.
  inv_bind H as oA arm HA. inv_bind H as oD u0 HD.
  inv_bind H as oh1 uh1 Hh1. inv_bind H as oM mesh1 HM.
  inv_bind H as oh2 uh2 Hh2.
  inv_bind H as oT u1 HT. inv_bind H as oB hand_bone HB. inv_bind H as oL u2 HL.
  inv_bind H as oV v_sample HV. inv_bind H as oS u3 HS. inv_bind H as oW mesh2 HW.
  inv_bind H as oC mesh3 HC.
  inv_bind H as oh3 uh3 Hh3. inv_bind H as oh4 uh4 Hh4.
  inv_bind H as oK bones HK. inv_bind H as oR r HR.
  inv_bind H as oP u4 HP.
  inv_bind H as oX u6 HX. inv_bind H as oh5 uh5 Hh5. inv_bind H as oh6 uh6 Hh6.
  inv_bind H as oE u5 HE.
  apply host_call_inr in Hh1 as [_ ->]. apply host_call_inr in Hh2 as [_ ->].
  apply host_call_inr in Hh3 as [_ ->]. apply host_call_inr in Hh4 as [_ ->].
  apply host_call_inr in Hh5 as [_ ->]. apply host_call_inr in Hh6 as [_ ->].
  apply attach_materials_inr in HX as [-> _].
  apply attr_inr in HM as [Hmesh ->]. apply print_inr in HT as ->.
  apply attr_inr in HB as [Hhand ->]. apply print_inr in HL as ->.
  apply item_inr in HV as [Hv ->]. apply print_inr in HS as ->.
  rewrite transfer_weights_eq in HW. injection HW as <- <-.
  rewrite remove_unused_eq in HC. injection HC as <- <-.
  apply keep_hand_subtree_inr in HK as (keep & Hh & Hc & -> & ->).
  apply print_inr in HE as ->. injection H as <- <-.
  assert (Armature data = Some arm ∧ oA = []) as [Harm ->].
  { destruct (Armature data); [|discriminate HA]. by injection HA as <- <-. }
  assert (oD = dup_out data) as ->.
  { unfold dup_out. destruct (Cube_005 data); by injection HD as <- _. }
  assert ("hand.L" ∈ keep) as Hhk.
  { apply (collect_spec _ _ _ _ _ Hc). right. apply rtc_refl. }
  destruct (get_pruned keep (edit_bones arm) hand_bone Hhk Hhand)
    as (h' & Hg' & Hhead & Hpar).
  destruct r as [arm' mesh1'].
  pose proof (rebase_inr _ _ _ _ _ _ HR) as (_ & _ & _ & _ & Hf & _).
  rewrite (rebase_run _ _ _ h') in HR by done.
  rewrite Hhead in HR. injection HR as <- <- <-.
  cbn [snd] in HP.
  match type of HP with print_bounds ?m = _ =>
    destruct (print_bounds_runs m) as (x0 & x1 & y0 & y1 & z0 & z1 & Hpb) end.
  { intros Hnil. apply lookup_lt_Some in Hv.
    apply (f_equal length) in Hnil. simpl in Hnil.
    rewrite !length_fmap, length_unused_removed, length_transferred,
      length_transform_apply in Hnil.
    rewrite length_transform_apply, Hnil in Hv. lia. }
  rewrite Hpb in HP. injection HP as <-.
  exists arm, mesh1, hand_bone, keep, v_sample, x0, x1, y0, y1, z0, z1.
  split; [done|]. split; [done|]. split; [done|]. split; [done|].
  split; [done|]. split; [done|]. by rewrite !app_nil_r.
Qed.

End main_facts.

(** ** The claims on mirror and translation *)

Section rebasing_claims.

Import ExportHand.

Local Open Scope Qc_scope.

(** C6. Mirror and translation leave the head of hand.L at the zero
    vector, which is also what the script prints for it.  hand.L is a
    root when the step runs (line 92 cleared its parent), so that no
    parent's tail is written into its head: for every armature in which
    hand.L has no parent, lines 94 to 106 return with hand.L at the
    origin, and so does the whole step when the host switches back to
    object mode; and in every run of the script that reaches the
    exporter, hand.L is at the origin of the exported armature. *)
Theorem rebase_root_at_origin :
  (∀ bones hand_l,
      EditBones.get "hand.L" bones = Some hand_l → EditBone.parent hand_l = None →
      ∃ offset bones' hand_l',
        rebase_bones bones
        = ([HandAfterMirror offset; HandHeadAfterTranslate zero], inr (offset, bones')) ∧
        EditBones.get "hand.L" bones' = Some hand_l' ∧
        EditBone.head hand_l' = zero)
  ∧ (∀ host arm mesh1 hand_l,
      EditBones.get "hand.L" (edit_bones arm) = Some hand_l →
      EditBone.parent hand_l = None → fails host ModeSetObject = None →
      ∃ offset arm' mesh1' hand_l',
        rebase host arm mesh1
        = ([HandAfterMirror offset; HandHeadAfterTranslate zero], inr (arm', mesh1')) ∧
        EditBones.get "hand.L" (edit_bones arm') = Some hand_l' ∧
        EditBone.head hand_l' = zero)
  ∧ (∀ host limit data out d,
      main host limit data = (out, inr d) →
      ∃ arm' hand_l',
        Armature d = Some arm' ∧
        EditBones.get "hand.L" (edit_bones arm') = Some hand_l' ∧
        EditBone.head hand_l' = zero ∧
        HandHeadAfterTranslate zero ∈ out).
Proof.
  split; [|split].
  - intros bones hand_l Hg Hp.
    destruct (rebase_bones_root bones hand_l Hg Hp) as [Hrun (h' & Hg' & Hz & _)].
    eexists _, _, h'. split; [exact Hrun|]. done.
  - intros host arm mesh1 hand_l Hg Hp Hf.
    destruct (rebase_bones_root _ hand_l Hg Hp) as [_ (h' & Hg' & Hz & _)].
    eexists _, _, _, h'. split; [by apply rebase_run|]. done.
  - intros host limit data out d Hm.
    apply main_inr in Hm
      as (arm & mesh1 & hb & keep & v & x0 & x1 & y0 & y1 & z0 & z1
          & HA & HM & HB & HV & HC & -> & ->).
    assert ("hand.L" ∈ keep) as Hhk.
    { apply (collect_spec _ _ _ _ _ HC). right. apply rtc_refl. }
    destruct (get_pruned keep (edit_bones arm) hb Hhk HB) as (h1 & Hg1 & Hh1 & Hp1).
    destruct (rebase_bones_root _ h1 Hg1 Hp1) as [_ (h' & Hg' & Hz & _)].
    rewrite Hh1 in Hg'.
    eexists _, h'. split; [reflexivity|]. split; [exact Hg'|]. split; [done|].
    apply elem_of_app. right. apply elem_of_app. right. apply elem_of_app. right.
    do 3 apply list_elem_of_further. apply list_elem_of_here.
Qed.

Lemma rebase_root_at_origin_witness :
  ∃ offset bones' hand_l',
    rebase_bones arm_pruned
    = ([HandAfterMirror offset; HandHeadAfterTranslate zero], inr (offset, bones')) ∧
    EditBones.get "hand.L" bones' = Some hand_l' ∧
    EditBone.head hand_l' = zero.
Proof.
  apply (proj1 rebase_root_at_origin arm_pruned (bone_at "hand.L" None 2 1 0)).
  - reflexivity.
  - reflexivity.
Defined.

Example main_connected_scene :
  main willing_host 10 connected_scene
  = (fst (main willing_host 10 connected_scene), inr connected_scene_result).
Proof. by_compute. Qed.

(** C1.  The offset is the head of hand.L after the X mirror of the
    bones and every vertex is moved by it; in an armature without
    connected bones every bone head and tail is mirrored and moved by the
    same offset; a mesh whose object matrix is the X mirror has had its
    vertices mirrored by [transform_apply].  On the example scene hand.L
    at (2,1,0) gives the offset (-2,1,0), hand.L ends at the origin and
    the vertex at (-1,1,0) ends at (3,0,0).  With a finger connected to
    hand.L the bones do not follow: the two vertices that lie on the head
    and on the tail of hand.L end at (0,0,0) and (-1,0,0), while the tail
    of hand.L and the head of the finger end at (7,-1,0) and not at
    (-1,0,0), because the host copies each write to the finger's head
    into the tail of hand.L, and each write to the tail of hand.L into
    the finger's head. *)
Theorem rebase_single_offset :
  (∀ host arm mesh1 hand_l,
      EditBones.get "hand.L" (edit_bones arm) = Some hand_l →
      EditBone.parent hand_l = None → fails host ModeSetObject = None →
      ∃ out arm' mesh1',
        let offset := mirror_x (EditBone.head hand_l) in
        rebase host arm mesh1 = (HandAfterMirror offset :: out, inr (arm', mesh1')) ∧
        vertices mesh1' = rebased_vertex offset <$> vertices mesh1 ∧
        (unconnected (edit_bones arm) →
         edit_bones arm' = rebased_bone offset <$> edit_bones arm))
  ∧ (∀ mesh1,
      matrix_world mesh1 = MirrorX →
      vertices (transform_apply mesh1)
      = (λ v, MeshVertex.Build (mirror_x (MeshVertex.co v)) (MeshVertex.groups v))
          <$> vertices mesh1)
  ∧ (∃ out arm' mesh1' hand_l',
      main willing_host 10 arm_scene
      = (out, inr (MkData (Some arm') (Some mesh1') None [])) ∧
      HandAfterMirror (vec3 (-2) 1 0) ∈ out ∧
      EditBones.get "hand.L" (edit_bones arm') = Some hand_l' ∧
      EditBone.head hand_l' = vec3 0 0 0 ∧
      MeshVertex.co <$> vertices mesh1' = [vec3 3 0 0])
  ∧ (∃ out arm' mesh1',
      main willing_host 10 connected_scene
      = (out, inr (MkData (Some arm') (Some mesh1') None [])) ∧
      HandAfterMirror (vec3 (-2) 1 0) ∈ out ∧
      MeshVertex.co <$> vertices mesh1' = [vec3 0 0 0; vec3 (-1) 0 0] ∧
      (λ b, (EditBone.name b, EditBone.head b, EditBone.tail b)) <$> edit_bones arm'
      = [("hand.L", vec3 0 0 0, vec3 7 (-1) 0);
         ("finger_middle.01.L", vec3 7 (-1) 0, vec3 (-2) 0 0)] ∧
      (λ b, (EditBone.name b, EditBone.head b, EditBone.tail b))
        <$> (rebased_bone (vec3 (-2) 1 0) <$> connected_pruned)
      = [("hand.L", vec3 0 0 0, vec3 (-1) 0 0);
         ("finger_middle.01.L", vec3 (-1) 0 0, vec3 (-2) 0 0)]).
Proof.
  split; [|split; [|split]].
  - intros host arm mesh1 hand_l Hg Hp Hf. eexists _, _, _. cbn zeta.
    split; [by apply rebase_run|]. split; [done|].
    intros Hu. cbn [edit_bones]. by apply rebase_bones_unconnected.
  - intros mesh1 HM. unfold transform_apply, transform. simpl. rewrite HM.
    apply list_fmap_ext. intros i v _. by rewrite mul_MirrorX.
  - eexists _, _, _, (bone_at "hand.L" None 0 0 0).
    split; [exact main_arm_scene|].
    split; [|split; [|split]]; by_compute.
  - eexists _, _, _. split; [exact main_connected_scene|].
    split; [|split; [|split]]; by_compute.
Qed.

Lemma rebase_single_offset_witness :
  ∃ out arm' mesh1',
    rebase willing_host arm_armature_pruned arm_mesh
    = (HandAfterMirror (mirror_x (vec3 2 1 0)) :: out, inr (arm', mesh1')) ∧
    vertices mesh1' = rebased_vertex (mirror_x (vec3 2 1 0)) <$> vertices arm_mesh ∧
    edit_bones arm' = rebased_bone (mirror_x (vec3 2 1 0)) <$> arm_pruned.
Proof.
  destruct (proj1 rebase_single_offset willing_host arm_armature_pruned arm_mesh
              (bone_at "hand.L" None 2 1 0) eq_refl eq_refl eq_refl)
    as (out & arm' & mesh1' & Hrun & Hv & Hb).
  exists out, arm', mesh1'. split; [exact Hrun|]. split; [exact Hv|].
  apply Hb. by_compute.
Defined.

End rebasing_claims.

(** ** The rest of the script *)

Section dead_exit.

Import ExportHand.

Local Open Scope Qc_scope.

Lemma bind_not_printed {A B} ev (m : M A) (k : A → M B) :
  ev ∉ m.1 → (∀ a, m.2 = inr a → ev ∉ (k a).1) → ev ∉ (bind m k).1.
Proof.
  destruct m as [o1 [e|a]]; simpl; [done|].
  intros H1 H2. specialize (H2 a eq_refl).
  destruct (k a) as [o2 r]. simpl in *. by apply not_elem_of_app.
Qed.

Lemma bind_inl {A B} (m : M A) (k : A → M B) out e :
  bind m k = (out, inl e) →
  m = (out, inl e) ∨ ∃ o1 a o2, m = (o1, inr a) ∧ k a = (o2, inl e) ∧ out = o1 ++ o2.
Proof.
  destruct m as [o1 [e'|a]]; simpl; [intros [= <- <-]; by left|].
  destruct (k a) as [o2 r] eqn:Hk. intros [= <- ->]. right. by exists o1, a, o2.
Qed.

Tactic Notation "inv_bind_inl" hyp(H) "as" ident(o) ident(a) ident(Hm) :=
  apply bind_inl in H as [H | (o & a & ? & Hm & H & ->)].

Lemma host_call_inl host c out e :
  host_call host c = (out, inl e) → out = [] ∧ fails host c = Some e.
Proof.
  unfold host_call. destruct (fails host c); simpl; [|discriminate].
  by intros [= <- <-].
Qed.

Lemma attr_inl {A} (o : option A) out e :
  attr o = (out, inl e) → out = [] ∧ o = None ∧ e = AttributeError.
Proof. destruct o; simpl; [discriminate|]. by intros [= <- <-]. Qed.

Lemma host_call_out host c : (host_call host c).1 = [].
Proof. unfold host_call. by destruct (fails host c). Qed.

Lemma attr_out {A} (o : option A) : (attr o).1 = [].
Proof. by destruct o. Qed.

Lemma item_out {A} (l : list A) i : (item l i).1 = [].
Proof. unfold item. by destruct (l !! i). Qed.

Lemma list_min_out xs : (list_min xs).1 = [].
Proof. by destruct xs. Qed.

Lemma list_max_out xs : (list_max xs).1 = [].
Proof. by destruct xs. Qed.

Ltac not_printed :=
  repeat first
    [ apply not_elem_of_nil
    | rewrite host_call_out
    | rewrite attr_out
    | rewrite item_out
    | rewrite list_min_out
    | rewrite list_max_out
    | apply not_elem_of_cons; split; [discriminate|]
    | apply bind_not_printed; [|intros ? ?] ].

Lemma keep_hand_subtree_not_printed limit bones :
  is_Some (EditBones.get "hand.L" bones) →
  ErrorNoHandBone ∉ (keep_hand_subtree limit bones).1.
Proof.
  intros [h Hg]. unfold keep_hand_subtree. rewrite Hg.
  unfold lift. not_printed.
Qed.

Lemma rebase_not_printed host arm mesh1 :
  ErrorNoHandBone ∉ (rebase host arm mesh1).1.
Proof. unfold rebase, rebase_bones. not_printed. Qed.

Lemma print_bounds_not_printed m : ErrorNoHandBone ∉ (print_bounds m).1.
Proof. unfold print_bounds. not_printed. Qed.

Lemma attach_materials_not_printed host :
  ErrorNoHandBone ∉ (attach_materials host).1.
Proof.
  unfold attach_materials, link_texture.
  destruct (color_exists host), (normal_exists host), (principled_bsdf host);
    not_printed.
Qed.

(** X1. The exit of section 4 is dead code: whatever the host does and
    whatever the scene, "ERROR: No hand.L bone!" is never printed.  A
    scene whose armature has no hand.L bone does not get that far: the
    run raises before the weight transfer, at line 34 at the latest. *)
Theorem hand_bone_exit_unreachable host limit data :
  (ErrorNoHandBone ∉ (main host limit data).1)
  ∧ (∀ arm, Armature data = Some arm →
            "hand.L" ∉ EditBones.names (edit_bones arm) →
            ∃ out e, main host limit data = (out, inl e) ∧
                     ∀ ev, ev ∈ out →
                           ev = RemovedDuplicateMesh
                           ∨ ev = MeshTransformApplied Identity).
Proof.
  split.
  - unfold main.
    apply bind_not_printed.
    { destruct (Armature data); simpl; not_printed. }
    intros arm _. apply bind_not_printed.
    { destruct (Cube_005 data); simpl; not_printed. }
    intros _ _. apply bind_not_printed; [not_printed|]. intros _ _.
    apply bind_not_printed; [not_printed|]. intros mesh1 _.
    apply bind_not_printed; [not_printed|]. intros _ _.
    apply bind_not_printed; [simpl; not_printed|]. intros _ _.
    apply bind_not_printed; [not_printed|]. intros hand_bone Hhand.
    apply bind_not_printed; [simpl; not_printed|]. intros _ _.
    apply bind_not_printed; [not_printed|]. intros v_sample _.
    apply bind_not_printed; [simpl; not_printed|]. intros _ _.
    apply bind_not_printed.
    { rewrite transfer_weights_eq. unfold transferred_out. simpl.
      case_decide; not_printed. }
    intros mesh2 _. apply bind_not_printed; [simpl; not_printed|]. intros mesh3 _.
    apply bind_not_printed; [not_printed|]. intros _ _.
    apply bind_not_printed; [not_printed|]. intros _ _.
    apply bind_not_printed.
    { apply keep_hand_subtree_not_printed.
      destruct (EditBones.get "hand.L" (edit_bones arm)); [done|discriminate Hhand]. }
    intros bones _. apply bind_not_printed; [apply rebase_not_printed|]. intros r _.
    apply bind_not_printed; [apply print_bounds_not_printed|]. intros _ _.
    apply bind_not_printed; [apply attach_materials_not_printed|]. intros _ _.
    not_printed.
  - intros arm HA Hno.
    assert (EditBones.get "hand.L" (edit_bones arm) = None) as Hg.
    { destruct (EditBones.get "hand.L" (edit_bones arm)) as [h|] eqn:Hg; [|done].
      destruct Hno. apply get_Some in Hg as [Hin <-]. apply list_elem_of_fmap. eauto. }
    destruct (main host limit data) as [out [e|d]] eqn:Hm.
    2:{ apply main_inr in Hm as (? & ? & ? & ? & ? & ? & ? & ? & ? & ? & ?
                                 & HA' & _ & HB & _).
        congruence. }
    exists out, e. split; [done|].
    assert (∀ ev, ev ∈ dup_out data →
                  ev = RemovedDuplicateMesh ∨ ev = MeshTransformApplied Identity)
      as Hdup.
    { intros ev Hev. unfold dup_out in Hev.
      destruct (Cube_005 data); [|by apply elem_of_nil in Hev].
      apply elem_of_cons in Hev as [->|Hev]; [by left|by apply elem_of_nil in Hev]. }
    unfold main in Hm. rewrite HA in Hm.
    inv_bind_inl Hm as oA a0 HA0; [discriminate Hm|]. injection HA0 as <- <-.
    inv_bind_inl Hm as oD u0 HD.
    { destruct (Cube_005 data); discriminate Hm. }
    assert (oD = dup_out data) as ->.
    { unfold dup_out. destruct (Cube_005 data); by injection HD as <- _. }
    simpl. intros ev Hev.
    inv_bind_inl Hm as oh1 uh1 Hh1.
    { apply host_call_inl in Hm as [-> _]. rewrite app_nil_r in Hev. auto. }
    apply host_call_inr in Hh1 as [_ ->].
    inv_bind_inl Hm as oM mesh1 HM.
    { apply attr_inl in Hm as [-> _]. rewrite !app_nil_r in Hev. auto. }
    apply attr_inr in HM as [_ ->].
    inv_bind_inl Hm as oh2 uh2 Hh2.
    { apply host_call_inl in Hm as [-> _]. rewrite !app_nil_r in Hev. auto. }
    apply host_call_inr in Hh2 as [_ ->].
    inv_bind_inl Hm as oT u1 HT; [discriminate Hm|]. apply print_inr in HT as ->.
    inv_bind_inl Hm as oB hb HB.
    { apply attr_inl in Hm as [-> _]. simpl in Hev.
      apply elem_of_app in Hev as [Hev|Hev]; [auto|].
      apply elem_of_cons in Hev as [->|Hev]; [by right|by apply elem_of_nil in Hev]. }
    apply attr_inr in HB as [HB _]. cbn [edit_bones] in HB. congruence.
Qed.

End dead_exit.

Section exported_scene.

Import ExportHand.

Local Open Scope Qc_scope.








End exported_scene.

Section loop_order.

Import ExportHand.

Local Open Scope Qc_scope.

Lemma foldl_alter_NoDup {A} (g : A → A) (idx : list nat) (l : list A) (j : nat) :
  NoDup idx →
  foldl (λ vs i, alter g i vs) l idx !! j
  = if decide (j ∈ idx) then g <$> l !! j else l !! j.
Proof.
  revert l. induction idx as [|i idx IH]; intros l Hnd.
  - destruct (decide (j ∈ [])) as [Hj|_]; [by apply elem_of_nil in Hj|done].
  - apply NoDup_cons in Hnd as [Hi Hnd].
    change (foldl (λ vs i0, alter g i0 vs) l (i :: idx))
      with (foldl (λ vs i0, alter g i0 vs) (alter g i l) idx).
    rewrite IH by done. rewrite list_lookup_alter.
    destruct (decide (j ∈ i :: idx)) as [Hin|Hin];
      destruct (decide (j ∈ idx)) as [Hj|Hj];
      destruct (decide (i = j)) as [Hij|Hij]; subst; try done.
    + apply elem_of_cons in Hin as [?|?]; done.
    + destruct Hin. by apply list_elem_of_further.
    + destruct Hin. apply list_elem_of_here.
Qed.

(** X10. The loop over the vertices may visit them in any order: each
    turn reads and writes its own vertex only. *)
Theorem transfer_order_irrelevant forearm_vg hand_vg m (idx : list nat) :
  idx ≡ₚ seq 0 (length (vertices m)) →
  VertexGroup.remove forearm_vg (foldl (transfer_vertex forearm_vg hand_vg) m idx)
  = transfer forearm_vg hand_vg m.
Proof.
  intros Hperm. unfold transfer. f_equal.
  rewrite !foldl_transfer_vertex. f_equal. apply list_eq. intros j.
  rewrite foldl_alter_seq, foldl_alter_NoDup.
  - destruct (decide (j ∈ idx)) as [Hj|Hj].
    + rewrite decide_True; [done|]. rewrite Hperm in Hj.
      apply elem_of_seq in Hj. lia.
    + rewrite decide_False; [done|]. intros Hlt. apply Hj. rewrite Hperm.
      apply elem_of_seq. lia.
  - rewrite Hperm. apply NoDup_seq.
Qed.

Lemma transfer_order_irrelevant_witness :
  VertexGroup.remove "forearm.L"
    (foldl (transfer_vertex "forearm.L" "hand.L") two_vertex_mesh [1%nat; 0%nat])
  = transfer "forearm.L" "hand.L" two_vertex_mesh.
Proof.
  apply (transfer_order_irrelevant "forearm.L" "hand.L" two_vertex_mesh).
  simpl. apply Permutation_swap.
Defined.

End loop_order.

Section more_examples.

Import ExportHand.

Local Open Scope Qc_scope.

Lemma pruned_single_tree_witness :
  NoDup (EditBones.names arm_pruned) ∧
  (∃ hand_l, EditBones.get "hand.L" arm_pruned = Some hand_l
             ∧ EditBone.parent hand_l = None) ∧
  ∀ b', b' ∈ arm_pruned → EditBone.name b' ≠ "hand.L" →
        ∃ p, EditBone.parent b' = Some p ∧ p ∈ EditBones.names arm_pruned ∧
             in_subtree arm_pruned "hand.L" (EditBone.name b').
Proof.
  apply (pruned_single_tree 10 arm_bones [Keeping 2] arm_pruned).
  - by_compute.
  - exact keep_hand_subtree_arm.
Defined.

Lemma keeping_counts_bones_witness : [Keeping 2] = [Keeping (length arm_pruned)].
Proof.
  apply (keeping_counts_bones 10 arm_bones [Keeping 2] arm_pruned).
  - by_compute.
  - exact keep_hand_subtree_arm.
Defined.


End more_examples.
